(** * PrivateBlockchain: the star registry chain of [src/blockchain.js]

    A shallow embedding of the [Blockchain] class and the proofs of its
    specification.  The JavaScript object is a record of its two fields
    ([chain], [height]); every method is a function that takes the object
    and returns the object after the call together with the way the
    method's promise settled.  The methods are asynchronous.  The
    functions of the class take a call from its beginning to the end of
    everything it started, which is what happens when no other call
    begins in between.  [World] and [wstep] let calls overlap: an
    [_addBlock] pauses at its [await] of [validateChain], and [submitStar]
    settles its promise before the [_addBlock] it started has pushed.  The
    clock readings, the hash, the JSON printer and the signature check are
    inputs of the model. *)

From Stdlib Require Import ZArith Lia Ascii String.
From stdpp Require Import base option list strings pretty relations.

Open Scope Z_scope.

(** ** The JavaScript primitives the class uses *)

Module JS.

(** A number is an integer or [NaN].  Every number the class computes
    with comes from the clock or from [parseInt]; integers below [2^53]
    in magnitude are exact in a double, and that covers every reading of
    [Date.getTime] (at most 8.64e15).  Above [2^53] a double holds the
    nearest number it can, and [sub] and [gt] below do not round: what is
    proved of the comparison of line 140 is proved where rounding cannot
    change its outcome, for timestamps that are not negative (the
    difference is then at most the clock reading) and for the readings
    evaluated in the examples. *)
Inductive number : Type :=
| Int (z : Z)
| NaN.

(** [a - b]. *)
Definition sub (a b : number) : number :=
  match a, b with
  | Int x, Int y => Int (x - y)
  | _, _ => NaN
  end.

(** [a > b]: false as soon as one side is [NaN]. *)
Definition gt (a b : number) : bool :=
  match a, b with
  | Int x, Int y => bool_decide (y < x)
  | _, _ => false
  end.

(** The latest time a [Date] can hold, in milliseconds. *)
Definition max_time : Z := 8640000000000000.

(** [n.toString()] for an integer [n]: its decimal digits, with a minus
    sign when negative. *)
Definition toString (n : Z) : string := pretty n.

(** [s.slice(0, -k)]: [s] without its last [k] characters. *)
Definition slice_0_neg (k : nat) (s : string) : string :=
  String.substring 0 (String.length s - k) s.

(** [s.split(sep)] for a separator of one character. *)
Fixpoint split (sep : ascii) (s : string) : list string :=
  match s with
  | EmptyString => [EmptyString]
  | String c rest =>
      if bool_decide (c = sep) then EmptyString :: split sep rest
      else match split sep rest with
           | [] => [String c EmptyString]
           | field :: fields => String c field :: fields
           end
  end.

(** A string holds the UTF-8 bytes of the JavaScript text.  The white
    space and line terminators that [parseInt] skips are, of one byte:
    U+0009 to U+000D and U+0020; ... *)
Definition is_white_space (c : ascii) : bool :=
  let n := nat_of_ascii c in
  bool_decide (n = 9 ∨ n = 10 ∨ n = 11 ∨ n = 12 ∨ n = 13 ∨ n = 32)%nat.

(** ... of two bytes: U+00A0 ([C2 A0]); ... *)
Definition is_white_space2 (c1 c2 : ascii) : bool :=
  Nat.eqb (nat_of_ascii c1) 194 && Nat.eqb (nat_of_ascii c2) 160.

(** ... of three bytes: U+1680 ([E1 9A 80]), U+2000 to U+200A, U+2028,
    U+2029 and U+202F ([E2 80 80] to [E2 80 8A], [E2 80 A8], [E2 80 A9],
    [E2 80 AF]), U+205F ([E2 81 9F]), U+3000 ([E3 80 80]) and U+FEFF
    ([EF BB BF]). *)
Definition is_white_space3 (c1 c2 c3 : ascii) : bool :=
  let n1 := nat_of_ascii c1 in
  let n2 := nat_of_ascii c2 in
  let n3 := nat_of_ascii c3 in
  (Nat.eqb n1 225 && Nat.eqb n2 154 && Nat.eqb n3 128)
  || (Nat.eqb n1 226 && Nat.eqb n2 128
      && ((Nat.leb 128 n3 && Nat.leb n3 138)
          || Nat.eqb n3 168 || Nat.eqb n3 169 || Nat.eqb n3 175))
  || (Nat.eqb n1 226 && Nat.eqb n2 129 && Nat.eqb n3 159)
  || (Nat.eqb n1 227 && Nat.eqb n2 128 && Nat.eqb n3 128)
  || (Nat.eqb n1 239 && Nat.eqb n2 187 && Nat.eqb n3 191).

Fixpoint trim_start (s : string) : string :=
  match s with
  | EmptyString => s
  | String c1 rest1 =>
      if is_white_space c1 then trim_start rest1
      else match rest1 with
           | EmptyString => s
           | String c2 rest2 =>
               if is_white_space2 c1 c2 then trim_start rest2
               else match rest2 with
                    | EmptyString => s
                    | String c3 rest3 =>
                        if is_white_space3 c1 c2 c3 then trim_start rest3
                        else s
                    end
           end
  end.

(** The value of [c] as a digit in the given radix, if it is one. *)
Definition digit_value (radix : Z) (c : ascii) : option Z :=
  let n := Z.of_nat (nat_of_ascii c) in
  let v := if bool_decide (48 <= n <= 57) then Some (n - 48)
           else if bool_decide (97 <= n <= 122) then Some (n - 87)
           else if bool_decide (65 <= n <= 90) then Some (n - 55)
           else None in
  v ≫= λ d, if bool_decide (d < radix) then Some d else None.

(** Reads the longest prefix of digits; [acc] is [None] until a first
    digit was read. *)
Fixpoint parse_digits (radix : Z) (acc : option Z) (s : string) : option Z :=
  match s with
  | EmptyString => acc
  | String c rest =>
      match digit_value radix c with
      | Some d => parse_digits radix (Some (default 0 acc * radix + d)) rest
      | None => acc
      end
  end.

(** [parseInt(s)] without a radix argument: leading white space, an
    optional sign, an optional [0x]/[0X] prefix, then the digits. *)
Definition parseInt_string (s : string) : number :=
  let s := trim_start s in
  let '(sign, s) :=
    match s with
    | String "-" rest => (-1, rest)
    | String "+" rest => (1, rest)
    | _ => (1, s)
    end in
  let '(radix, s) :=
    match s with
    | String "0" (String "x" rest) => (16, rest)
    | String "0" (String "X" rest) => (16, rest)
    | _ => (10, s)
    end in
  match parse_digits radix None s with
  | Some z => Int (sign * z)
  | None => NaN
  end.

(** [parseInt(v)] where [v] is a string or [undefined] ([None]): the
    text ["undefined"] has no digit. *)
Definition parseInt (v : option string) : number :=
  match v with
  | Some s => parseInt_string s
  | None => NaN
  end.

(** [new Date().getTime().toString().slice(0,-3)] at a clock reading of
    [now] milliseconds. *)
Definition seconds_string (now : Z) : string :=
  slice_0_neg 3 (toString now).

End JS.

(** ** Errors and promises *)

(** A JavaScript [Error] object, told apart by its message. *)
Record Error : Type := mkError { message : string }.

(** What a call to a library function does: it returns or it throws. *)
Inductive Completion (A : Type) : Type :=
| Returns (a : A)
| Throws (e : Error).
Arguments Returns {A} a.
Arguments Throws {A} e.

(** The final state of a promise.  [Pending] is the promise that is never
    settled. *)
Inductive Promise (A : Type) : Type :=
| Resolved (a : A)
| Rejected (e : Error)
| Pending.
Arguments Resolved {A} a.
Arguments Rejected {A} e.
Arguments Pending {A}.

(** [resolve(a)] and [reject(e)] inside an executor: they settle the
    promise if it is still pending and do nothing otherwise; the executor
    goes on with its next statement in both cases. *)
Definition resolve {A : Type} (a : A) (p : Promise A) : Promise A :=
  match p with
  | Pending => Resolved a
  | _ => p
  end.

Definition reject {A : Type} (e : Error) (p : Promise A) : Promise A :=
  match p with
  | Pending => Rejected e
  | _ => p
  end.

(** ** Blocks *)

(** The star of the README: [{dec, ra, story}]. *)
Record Star : Type := mkStar { dec : string; ra : string; story : string }.

(** The two objects the class stores in a block: [{data: 'Genesis Block'}]
    and [{owner: address, star: star}]. *)
Inductive Payload : Type :=
| GenesisData (data : string)
| ClaimData (owner : string) (star : Star).

Module BlockClass.

(** Modelled from the spec: [block.js] is not among the sources.  A block
    has the five fields of section 3 and of the serialized shape of
    section 6; [hash] and [previousBlockHash] are [None] while absent
    and [body] is the encoded payload. *)
Record Block : Type := mkBlock {
  hash : option string;
  height : Z;
  body : string;
  time : option string;
  previousBlockHash : option string
}.

Definition set_hash (v : option string) (b : Block) : Block :=
  mkBlock v (height b) (body b) (time b) (previousBlockHash b).
Definition set_height (v : Z) (b : Block) : Block :=
  mkBlock (hash b) v (body b) (time b) (previousBlockHash b).
Definition set_body (v : string) (b : Block) : Block :=
  mkBlock (hash b) (height b) v (time b) (previousBlockHash b).
Definition set_time (v : option string) (b : Block) : Block :=
  mkBlock (hash b) (height b) (body b) v (previousBlockHash b).
Definition set_previousBlockHash (v : option string) (b : Block) : Block :=
  mkBlock (hash b) (height b) (body b) (time b) v.

End BlockClass.
Import BlockClass.

(** The libraries the class calls: [crypto-js/sha256] followed by
    [toString], [JSON.stringify] on a block, and [bitcoinMessage.verify],
    which returns a boolean or throws. *)
Class Libraries : Type := {
  SHA256 : string → string;
  JSON_stringify : Block → string;
  bitcoinMessage_verify : string → string → string → Completion bool
}.

(** Modelled from the spec: the reversible encoding of a block's body,
    which [block.js] defines ([decodeBody] fails on a malformed body). *)
Class BodyCodec : Type := {
  encodeBody : Payload → string;
  decodeBody : string → option Payload
}.

Section Block.
Context {libs : Libraries} {codec : BodyCodec}.

(** Modelled from the spec: [new BlockClass.Block(data)], a block that
    holds the encoded payload and has no hash, no previous hash and no
    time yet. *)
Definition new_Block (data : Payload) : Block :=
  mkBlock None 0 (encodeBody data) None None.

(** Modelled from the spec: the digest of a block, computed over its
    fields with the stored hash excluded; it is what line 79 computes on a
    block that has no hash yet. *)
Definition digest (self : Block) : string :=
  SHA256 (JSON_stringify (set_hash None self)).

(** Modelled from the spec: [block.validate()], the [selfCheck] of
    section 4.1.  It recomputes the digest from the current fields and
    compares it with the stored hash. *)
Definition validate (self : Block) : bool :=
  bool_decide (hash self = Some (digest self)).

(** Modelled from the spec: [block.getBData()], the [decodeBody] of
    section 4.1. *)
Definition getBData (self : Block) : Promise Payload :=
  match decodeBody (body self) with
  | Some data => Resolved data
  | None => Rejected (mkError "DecodeError")
  end.

End Block.


(** ** The Blockchain class *)

(** The object: [this.chain] and [this.height]. *)
Record Blockchain : Type := mkBlockchain {
  chain : list Block;
  height : Z
}.

(** The two messages [validateChain] logs. *)
Definition Block_not_valid : Error := mkError "Block not valid".
Definition Incompatible_previous_hash : Error :=
  mkError "Incompatible previous hash".

(** The error [_addBlock] throws when the chain does not validate; the
    spec calls it [ChainCorruptError]. *)
Definition ChainCorruptError : Error :=
  mkError "Block could not be added to chain - invalid block".

(** The two errors of [submitStar]; the spec calls them
    [ExpiredChallengeError] and [InvalidSignatureError]. *)
Definition ExpiredChallengeError : Error :=
  mkError "ERROR - 5 minutes or more have passed.".
Definition InvalidSignatureError : Error :=
  mkError "ERROR - Message with wallet address invalid".

(** The literal [30000000000000000000000000000] of line 140 as the double
    it denotes: the nearest double to 3e28. *)
Definition elapsed_limit : Z := 30000000000000000948382466048.

Section Blockchain.
Context {libs : Libraries} {codec : BodyCodec}.

(** The fields as lines 25-26 of the constructor leave them. *)
Definition constructor_fields : Blockchain := mkBlockchain [] (-1).

(** [getChainHeight()]. *)
Definition getChainHeight (self : Blockchain) : Promise Z :=
  Resolved (height self).

(** One turn of the loop of [validateChain] (lines 240-257): what the
    turn for index [idx] appends to [errorLog].  A missing element cannot
    occur, [idx] ranges over the indices of the array. *)
Definition validateChain_turn (self : Blockchain) (errorLog : list Error)
    (idx : nat) : list Error :=
  match chain self !! idx with
  | None => errorLog
  | Some curBlock =>
      let validBlock := validate curBlock in
      let errorLog :=
        if negb validBlock then errorLog ++ [Block_not_valid] else errorLog in
      if bool_decide (idx ≠ 0%nat) then
        let prevIndex := (idx - 1)%nat in
        match chain self !! prevIndex with
        | None => errorLog
        | Some prevBlock =>
            if bool_decide (previousBlockHash curBlock ≠ hash prevBlock)
            then errorLog ++ [Incompatible_previous_hash]
            else errorLog
        end
      else errorLog
  end.

(** [validateChain()]: the list its promise resolves with.  [for (let idx
    in self.chain)] runs over the indices of the array in ascending
    order. *)
Definition validateChain (self : Blockchain) : list Error :=
  foldl (validateChain_turn self) [] (seq 0 (length (chain self))).

(** [_addBlock(block)] at a clock reading of [now] milliseconds.  The
    method assigns to the block it is given, so the result has the object
    after the call, the block after the call and the promise. *)
Definition _addBlock (self : Blockchain) (block : Block) (now : Z)
    : Blockchain * Block * Promise Block :=
  let block := set_height (height self + 1) block in
  let block := set_time (Some (JS.seconds_string now)) block in
  let block :=
    if bool_decide (0 < length (chain self))%nat
    then match chain self !! (length (chain self) - 1)%nat with
         | Some tail => set_previousBlockHash (hash tail) block
         | None => block
         end
    else block in
  let block := set_hash (Some (SHA256 (JSON_stringify block))) block in
  let validateChain := validateChain self in
  if bool_decide (0 < length validateChain)%nat
  then (self, block, Rejected ChainCorruptError)
  else (mkBlockchain (chain self ++ [block]) (BlockClass.height block),
        block, Resolved block).

(** [initializeChain()]. *)
Definition initializeChain (self : Blockchain) (now : Z)
    : Blockchain * Promise unit :=
  if bool_decide (height self = -1) then
    let block := new_Block (GenesisData "Genesis Block") in
    match _addBlock self block now with
    | (self, _, Resolved _) => (self, Resolved tt)
    | (self, _, Rejected e) => (self, Rejected e)
    | (self, _, Pending) => (self, Pending)
    end
  else (self, Resolved tt).

(** [new Blockchain()] at a clock reading of [now]. *)
Definition new_Blockchain (now : Z) : Blockchain :=
  (initializeChain constructor_fields now).1.

(** [requestMessageOwnershipVerification(address)]. *)
Definition requestMessageOwnershipVerification (address : string) (now : Z)
    : Promise string :=
  let msg := address +:+ ":" +:+ JS.seconds_string now +:+ ":starRegistry" in
  Resolved msg.

(** [submitStar(address, message, signature, star)]; [now] is the clock
    reading of line 137 and [now'] the one [_addBlock] takes.  No branch of
    the executor returns: after a [reject] the statements that follow still
    run.  [verified] stays [undefined] ([None]) when the check throws. The
    promise of [_addBlock] is dropped. *)
Definition submitStar (self : Blockchain)
    (address message signature : string) (star : Star) (now now' : Z)
    : Blockchain * Promise Block :=
  let p : Promise Block := Pending in
  let msgTime := JS.parseInt (JS.split ":" message !! 1%nat) in
  let curTime := JS.parseInt (Some (JS.seconds_string now)) in
  let p :=
    if JS.gt (JS.sub curTime msgTime) (JS.Int elapsed_limit)
    then reject ExpiredChallengeError p
    else p in
  let '(verified, p) :=
    match bitcoinMessage_verify message address signature with
    | Returns v => (Some v, p)
    | Throws error => (None, reject error p)
    end in
  let p :=
    if negb (default false verified)
    then reject InvalidSignatureError p
    else p in
  let newBlock := new_Block (ClaimData address star) in
  let '(self, newBlock, _) := _addBlock self newBlock now' in
  (self, resolve newBlock p).

(** One turn of the loop of [getStarsByWalletAddress] (lines 217-221).
    [None] is the turn in which [await block.getBData()] throws. *)
Definition getStars_turn (address : string) (stars : list Star)
    (block : Block) : option (list Star) :=
  if bool_decide (0 < BlockClass.height block) then
    match getBData block with
    | Resolved (ClaimData owner star) =>
        if bool_decide (owner = address) then Some (stars ++ [star])
        else Some stars
    | Resolved (GenesisData _) => Some stars
    | _ => None
    end
  else Some stars.

(** [getStarsByWalletAddress(address)].  When a body does not decode the
    executor ends by an exception before [resolve], and the promise is
    never settled. *)
Definition getStarsByWalletAddress (self : Blockchain) (address : string)
    : Promise (list Star) :=
  let stars :=
    foldl (λ stars block, stars ≫= λ stars, getStars_turn address stars block)
          (Some []) (chain self) in
  match stars with
  | Some stars => Resolved stars
  | None => Pending
  end.

(** The calls that change the object, each taken alone from its
    beginning to the end of the [_addBlock] it started. *)
Inductive step : Blockchain → Blockchain → Prop :=
| step_addBlock self block now :
    step self (_addBlock self block now).1.1
| step_initializeChain self now :
    step self (initializeChain self now).1
| step_submitStar self address message signature star now now' :
    step self (submitStar self address message signature star now now').1.

(** The states of an object made by [new Blockchain()] on which every
    call began after the appends of the calls before it had ended.  The
    states of an object whose calls overlap are those of [observable]. *)
Definition reachable (self : Blockchain) : Prop :=
  ∃ now, rtc step (new_Blockchain now) self.

End Blockchain.


(** ** The specification's words, for the comparison with the code *)

Section Specification.
Context {libs : Libraries} {codec : BodyCodec}.

(** The errors of one block, in the words of section 4.3: one when its
    self-check fails, ... *)
Definition self_check_errors (block : Block) : list Error :=
  if validate block then [] else [Block_not_valid].

(** ... one, above index 0, when its previous hash is not the hash of the
    block before it, ... *)
Definition linkage_errors (self : Blockchain) (idx : nat) (block : Block)
    : list Error :=
  match idx with
  | O => []
  | S prevIndex =>
      match chain self !! prevIndex with
      | Some prevBlock =>
          if bool_decide (previousBlockHash block = hash prevBlock)
          then []
          else [Incompatible_previous_hash]
      | None => []
      end
  end.

(** ... in that order. *)
Definition detected_errors (self : Blockchain) (idx : nat) (block : Block)
    : list Error :=
  self_check_errors block ++ linkage_errors self idx block.

(** The errors of all blocks, block after block. *)
Definition all_detected_errors (self : Blockchain) : list Error :=
  concat (imap (detected_errors self) (chain self)).

(** The star a block contributes to the stars of [address]: the decoded
    star of a block above Genesis whose decoded owner is [address]. *)
Definition star_owned_by (address : string) (block : Block) : option Star :=
  if bool_decide (0 < BlockClass.height block) then
    match decodeBody (body block) with
    | Some (ClaimData owner star) =>
        if bool_decide (owner = address) then Some star else None
    | _ => None
    end
  else None.

(** The stars of [address], in chain order. *)
Definition stars_of_owner (self : Blockchain) (address : string) : list Star :=
  omap (star_owned_by address) (chain self).

(** The block [_addBlock] makes of [block] by its assignments of lines
    68-79, named for the statements below. *)
Definition sealed (self : Blockchain) (block : Block) (now : Z) : Block :=
  (_addBlock self block now).1.2.

(** The object after a commit of [block]: lines 89-90. *)
Definition committed (self : Blockchain) (block : Block) : Blockchain :=
  mkBlockchain (chain self ++ [block]) (BlockClass.height block).

End Specification.

(** Every block sits at the index that is its height. *)
Definition heights_are_positions (self : Blockchain) : Prop :=
  ∀ (idx : nat) (block : Block),
    chain self !! idx = Some block → BlockClass.height block = Z.of_nat idx.

(** What holds of the object from the constructor on as long as no call
    begins while an append is in flight: the counter is the last index of
    the array and blocks sit at their heights. *)
Record counted (self : Blockchain) : Prop := {
  counted_height : height self = Z.of_nat (length (chain self)) - 1;
  counted_positions : heights_are_positions self
}.

(** What holds of such an object once the Genesis block is in: moreover
    the first block has no previous hash and every later block has the
    hash stored just before it. *)
Record hash_linked (self : Blockchain) : Prop := {
  linked_counted : counted self;
  linked_nonempty : chain self ≠ [];
  linked_genesis :
    ∀ block, chain self !! 0%nat = Some block → previousBlockHash block = None;
  linked_previous :
    ∀ idx block prevBlock,
      chain self !! S idx = Some block → chain self !! idx = Some prevBlock →
      previousBlockHash block = hash prevBlock
}.

(** The object after an outside write [f] to the block at index [idx]
    of the array; a body overwritten, and a stored hash overwritten. *)
Definition overwrite (f : Block → Block) (idx : nat) (self : Blockchain)
    : Blockchain :=
  mkBlockchain (alter f idx (chain self)) (height self).

Definition corrupt_body (idx : nat) (body' : string) : Blockchain → Blockchain :=
  overwrite (set_body body') idx.

Definition corrupt_hash (idx : nat) (hash' : option string)
    : Blockchain → Blockchain :=
  overwrite (set_hash hash') idx.

(** ** The lookups of the class *)

#[global] Instance number_eq_dec : EqDecision JS.number.
Proof. solve_decision. Defined.

Section Lookups.
Context {libs : Libraries} {codec : BodyCodec}.

(** [getBlockByHash(hash)] for a string [hash]; [==] between a stored hash
    and a string holds when the stored hash is that string.  The [reject]
    of line 182 does not end the executor: the [resolve] of line 184 still
    runs, on a promise that is settled.  [block[0]] is [None] when the
    filtered array is empty. *)
Definition getBlockByHash (self : Blockchain) (hash : string)
    : Promise (option Block) :=
  let p : Promise (option Block) := Pending in
  let block := filter (λ block, BlockClass.hash block = Some hash) (chain self) in
  let p :=
    if bool_decide (length block = 0%nat)
    then reject (mkError "Hash not found") p
    else p in
  resolve (block !! 0%nat) p.

(** [getBlockByHeight(height)] for a number [height]; [===] between numbers
    is false on [NaN].  The promise resolves with the block or with [null]
    ([None]). *)
Definition getBlockByHeight (self : Blockchain) (height : JS.number)
    : Promise (option Block) :=
  let block :=
    filter (λ p, JS.Int (BlockClass.height p) = height) (chain self) !! 0%nat in
  match block with
  | Some block => Resolved (Some block)
  | None => Resolved None
  end.

(** The states of an object that is made by [new Blockchain()] and then
    used through the methods without underscore, every call beginning
    after the appends of the calls before it have ended. *)
Inductive built : Blockchain → Prop :=
| built_new now : built (new_Blockchain now)
| built_initializeChain self now :
    built self → built (initializeChain self now).1
| built_submitStar self address message signature star now now' :
    built self →
    built (submitStar self address message signature star now now').1.

End Lookups.

(** ** Calls that overlap *)

Section InFlight.
Context {libs : Libraries} {codec : BodyCodec}.

(** An [_addBlock] that has begun and has not ended.  The call runs lines
    68-79 and starts [validateChain] (line 81) in the turn of its caller;
    what follows the [await] of line 81 runs in a later turn of the event
    loop, and other calls begin and end in between.  [candidate] is the
    block as line 79 leaves it.  [verdict] is the list [validateChain]
    resolves with: the loop of line 240 ranges over the indices the array
    has when the loop begins, and a block is not assigned to after its
    push, so the list is the one of the object as the call finds it. *)
Record Append : Type := mkAppend {
  candidate : Block;
  verdict : list Error
}.

(** Lines 68-81 of [_addBlock]. *)
Definition begin_addBlock (self : Blockchain) (block : Block) (now : Z)
    : Append :=
  mkAppend (sealed self block now) (validateChain self).

(** Lines 83-92 of [_addBlock], on the object as it is by then: [push]
    adds the block behind whatever was pushed in between, and the counter
    takes the height the block was given at line 68. *)
Definition finish_addBlock (self : Blockchain) (a : Append)
    : Blockchain * Promise Block :=
  if bool_decide (0 < length (verdict a))%nat
  then (self, Rejected ChainCorruptError)
  else (mkBlockchain (chain self ++ [candidate a])
                     (BlockClass.height (candidate a)),
        Resolved (candidate a)).

(** The object and the appends that have begun on it and not ended, in
    the order they began. *)
Record World : Type := mkWorld {
  object : Blockchain;
  in_flight : list Append
}.

(** An object with nothing in flight. *)
Definition settled (self : Blockchain) : World := mkWorld self [].

(** [initializeChain()] up to its [await] (line 38). *)
Definition initializeChain_begin (w : World) (now : Z) : World :=
  if bool_decide (height (object w) = -1) then
    let block := new_Block (GenesisData "Genesis Block") in
    mkWorld (object w) (in_flight w ++ [begin_addBlock (object w) block now])
  else w.

(** [new Blockchain()]: the constructor does not wait for
    [initializeChain] (line 27) and returns with the append of the Genesis
    block in flight. *)
Definition constructor (now : Z) : World :=
  initializeChain_begin (settled constructor_fields) now.

(** [submitStar(address, message, signature, star)] up to the end of its
    executor, which runs in the turn of the call: lines 134-160 settle the
    promise or not, line 165 begins the append and does not wait for it,
    line 166 resolves with the block as line 79 left it.  The promise is
    the one of [submitStar] above, which does not depend on what
    [validateChain] finds. *)
Definition submitStar_begin (w : World)
    (address message signature : string) (star : Star) (now now' : Z)
    : World * Promise Block :=
  let newBlock := new_Block (ClaimData address star) in
  (mkWorld (object w)
           (in_flight w ++ [begin_addBlock (object w) newBlock now']),
   (submitStar (object w) address message signature star now now').2).

(** The append that began first ends. *)
Definition finish_next (w : World) : World :=
  match in_flight w with
  | [] => w
  | a :: rest => mkWorld (finish_addBlock (object w) a).1 rest
  end.

(** What can happen to an object that is used through its public
    methods: a call begins, or an append in flight ends.  [_addBlock] is
    called by [initializeChain] and [submitStar] only.  Appends may end in
    any order here; the order they end in depends on how many turns
    [validate] of [block.js] takes. *)
Inductive wstep : World → World → Prop :=
| wstep_initializeChain w now :
    wstep w (initializeChain_begin w now)
| wstep_submitStar w address message signature star now now' :
    wstep w (submitStar_begin w address message signature star now now').1
| wstep_finish w before a after :
    in_flight w = before ++ a :: after →
    wstep w (mkWorld (finish_addBlock (object w) a).1 (before ++ after)).

(** The states a caller can find an object made by [new Blockchain()]
    in, whenever the calls on it begin. *)
Definition observable (self : Blockchain) : Prop :=
  ∃ now w, rtc wstep (constructor now) w ∧ object w = self.

(** The counter is the height of the last block of the array, and [-1]
    on the empty array. *)
Definition tail_counted (self : Blockchain) : Prop :=
  match last (chain self) with
  | Some tail => height self = BlockClass.height tail
  | None => height self = -1
  end.

(** What lines 68-79 give a block: a height that is not negative and a
    hash; at height 0 no previous hash; above height 0, as previous hash,
    the hash of a block of the height below that sits among [blocks]
    before index [bound]. *)
Definition linked_below (blocks : list Block) (bound : nat) (block : Block)
    : Prop :=
  0 ≤ BlockClass.height block
  ∧ is_Some (hash block)
  ∧ (BlockClass.height block = 0 → previousBlockHash block = None)
  ∧ (0 < BlockClass.height block →
     ∃ j prevBlock h,
       (j < bound)%nat
       ∧ blocks !! j = Some prevBlock
       ∧ BlockClass.height prevBlock = BlockClass.height block - 1
       ∧ hash prevBlock = Some h
       ∧ previousBlockHash block = Some h).

(** What holds of the object and of the appends in flight whatever the
    calls and their order: the counter follows the last block, every block
    passes its self-check and is linked to a block before it, and so is
    every block that waits for its push. *)
Record world_sound (w : World) : Prop := {
  sound_counter : tail_counted (object w);
  sound_chain :
    ∀ idx block, chain (object w) !! idx = Some block →
      validate block = true ∧ linked_below (chain (object w)) idx block;
  sound_in_flight :
    ∀ a, a ∈ in_flight w →
      validate (candidate a) = true
      ∧ linked_below (chain (object w)) (length (chain (object w)))
                     (candidate a)
}.

(** Two calls of [submitStar] one after the other, each awaited, on an
    object with nothing in flight and at least one block.  The promise of
    the first call is settled by line 166 in the turn of the call, while
    its append waits for [validateChain], whose loop awaits once for
    every block (line 244); the caller goes on one turn later and the
    second call begins, before the first append has pushed.  Then the two
    appends end.  Two calls that are not awaited go the same way. *)
Definition two_awaited_submitStar (self : Blockchain)
    (address1 message1 signature1 : string) (star1 : Star) (now1 now1' : Z)
    (address2 message2 signature2 : string) (star2 : Star) (now2 now2' : Z)
    : World :=
  let w := settled self in
  let w := (submitStar_begin w address1 message1 signature1 star1
              now1 now1').1 in
  let w := (submitStar_begin w address2 message2 signature2 star2
              now2 now2').1 in
  let w := finish_next w in
  finish_next w.

End InFlight.

(** ** Stand-ins for the libraries, to run the class on concrete inputs *)

Module Demo.

(** A printer of the five fields. *)
Definition print_option (v : option string) : string :=
  match v with
  | Some s => s
  | None => "null"
  end.

Definition print_block (b : Block) : string :=
  "{hash:" +:+ print_option (hash b)
  +:+ ",height:" +:+ JS.toString (BlockClass.height b)
  +:+ ",body:" +:+ body b
  +:+ ",time:" +:+ print_option (time b)
  +:+ ",previousBlockHash:" +:+ print_option (previousBlockHash b) +:+ "}".

(** A signature is valid when it is the text ["signed:"] followed by the
    address and the message; the check throws on an empty signature. *)
Definition check_signature (message address signature : string)
    : Completion bool :=
  if bool_decide (signature = "") then Throws (mkError "Invalid signature length")
  else Returns (bool_decide
                  (signature = "signed:" +:+ address +:+ ":" +:+ message)).

(** The digest is the printed block itself behind a mark, so that two
    blocks that print differently never collide. *)
#[local] Instance libraries : Libraries := {|
  SHA256 := λ s, "sha256:" +:+ s;
  JSON_stringify := print_block;
  bitcoinMessage_verify := check_signature
|}.

(** Bodies: a claim is the owner and the three fields of the star with
    slashes between them, anything without a slash is the Genesis marker. *)
Definition encode (data : Payload) : string :=
  match data with
  | GenesisData d => d
  | ClaimData owner star =>
      owner +:+ "/" +:+ dec star +:+ "/" +:+ ra star +:+ "/" +:+ story star
  end.

Definition decode (s : string) : option Payload :=
  match JS.split "/" s with
  | [d] => Some (GenesisData d)
  | [owner; dec; ra; story] => Some (ClaimData owner (mkStar dec ra story))
  | _ => None
  end.

#[local] Instance codec : BodyCodec := {|
  encodeBody := encode;
  decodeBody := decode
|}.

Definition star4 : Star :=
  mkStar "68 52 56.9" "16h 29m 1.0s" "Testing the story 4".

(** A chain right after [new Blockchain()] on 2020-01-01, and the chain
    after one star and after two stars. *)
Definition fresh : Blockchain := new_Blockchain 1577836800123.

Definition one_star : Blockchain :=
  (submitStar fresh "1xyz" "1xyz:1577836801:starRegistry"
     "signed:1xyz:1xyz:1577836801:starRegistry" star4
     1577836802000 1577836802005).1.

(** The block of the first star, as [_addBlock] sealed it. *)
Definition block_1xyz : Block :=
  sealed fresh (new_Block (ClaimData "1xyz" star4)) 1577836802005.

Definition two_stars : Blockchain :=
  (submitStar one_star "1abc" "1abc:1577836900:starRegistry"
     "signed:1abc:1abc:1577836900:starRegistry"
     (mkStar "38 47 1.3" "18h 36m 56.3s" "Vega")
     1577836901000 1577836901002).1.

(** The chain of two stars after an outside write to the body of the
    first star's block. *)
Definition tampered : Blockchain := corrupt_body 1 "1bad/0/0h/mine" two_stars.

(** The star of the second claim. *)
Definition vega : Star := mkStar "38 47 1.3" "18h 36m 56.3s" "Vega".

(** The chain of two stars after an outside write of a body that does not
    decode. *)
Definition unreadable : Blockchain := corrupt_body 1 "a/b" two_stars.

(** The two claims submitted one right after the other on the fresh
    chain, each awaited: the second call begins before the append of the
    first has pushed. *)
Definition overlapped : World :=
  two_awaited_submitStar fresh
    "1xyz" "1xyz:1577836801:starRegistry"
    "signed:1xyz:1xyz:1577836801:starRegistry" star4
    1577836802000 1577836802005
    "1abc" "1abc:1577836900:starRegistry"
    "signed:1abc:1abc:1577836900:starRegistry" vega
    1577836802010 1577836802012.

(** The block of the second claim, as [_addBlock] sealed it on the fresh
    chain. *)
Definition block_1abc : Block :=
  sealed fresh (new_Block (ClaimData "1abc" vega)) 1577836802012.

(** The first claim begun on the fresh chain, its append in flight. *)
Definition one_in_flight : World :=
  (submitStar_begin (settled fresh)
     "1xyz" "1xyz:1577836801:starRegistry"
     "signed:1xyz:1xyz:1577836801:starRegistry" star4
     1577836802000 1577836802005).1.


(** The two bytes of a no-break space (U+00A0). *)
Definition no_break_space : string :=
  String (ascii_of_nat 194) (String (ascii_of_nat 160) EmptyString).

End Demo.


(** * Proofs *)

(** ** The JavaScript primitives *)

Example split_message :
  JS.split ":" "1xyz:1000:starRegistry" = ["1xyz"; "1000"; "starRegistry"].
Proof. reflexivity. Qed.

Example split_no_colon : JS.split ":" "hello" = ["hello"].
Proof. reflexivity. Qed.

Example parseInt_digits : JS.parseInt (Some "1000") = JS.Int 1000.
Proof. reflexivity. Qed.

Example parseInt_prefix : JS.parseInt (Some " -12abc") = JS.Int (-12).
Proof. reflexivity. Qed.

Example parseInt_hex : JS.parseInt (Some "0x1F") = JS.Int 31.
Proof. reflexivity. Qed.

Example parseInt_word : JS.parseInt (Some "starRegistry") = JS.NaN.
Proof. reflexivity. Qed.

Example seconds_string_2020 : JS.seconds_string 1577836800123 = "1577836800".
Proof. vm_compute. reflexivity. Qed.

Example seconds_string_first_second : JS.seconds_string 999 = "".
Proof. vm_compute. reflexivity. Qed.

Lemma string_app_cons (c : ascii) (a b : string) :
  String c a +:+ b = String c (a +:+ b).
Proof. reflexivity. Qed.

Lemma string_app_assoc (a b c : string) : (a +:+ b) +:+ c = a +:+ b +:+ c.
Proof.
  induction a as [|x a IH]; [reflexivity|].
  by rewrite !string_app_cons, IH.
Qed.

Lemma string_length_app (a b : string) :
  String.length (a +:+ b) = (String.length a + String.length b)%nat.
Proof.
  induction a as [|x a IH]; [reflexivity|].
  rewrite string_app_cons. simpl. by rewrite IH.
Qed.

Lemma substring_0_app (a b : string) :
  String.substring 0 (String.length a) (a +:+ b) = a.
Proof.
  induction a as [|c a IH].
  - by destruct b.
  - rewrite string_app_cons. simpl. by rewrite IH.
Qed.

Lemma slice_0_neg_app (k : nat) (a b : string) :
  String.length b = k → JS.slice_0_neg k (a +:+ b) = a.
Proof.
  intros <-. unfold JS.slice_0_neg.
  rewrite string_length_app.
  replace (String.length a + String.length b - String.length b)%nat
    with (String.length a) by lia.
  apply substring_0_app.
Qed.

(** The digits printed for [x] do not depend on what follows them. *)
Lemma pretty_N_go_app (x : N) (s : string) :
  pretty_N_go x s = pretty_N_go x "" +:+ s.
Proof.
  revert s. induction (N.lt_wf_0 x) as [x _ IH]; intros s.
  destruct (decide (x = 0%N)) as [->|Hx].
  - by rewrite !pretty_N_go_0.
  - rewrite !(pretty_N_go_step x) by lia.
    assert (Hlt : (x `div` 10 < x)%N) by (apply N.div_lt; lia).
    rewrite (IH _ Hlt (String (pretty_N_char (x `mod` 10)) s)).
    rewrite (IH _ Hlt (String (pretty_N_char (x `mod` 10)) "")).
    by rewrite string_app_assoc.
Qed.

Lemma pretty_N_go_1000 (x : N) :
  (1000 ≤ x)%N →
  ∃ tail, String.length tail = 3%nat ∧
    pretty_N_go x "" = pretty_N_go (x `div` 1000) "" +:+ tail.
Proof.
  intros Hx.
  assert (10 ≤ x `div` 10)%N by (apply N.div_le_lower_bound; lia).
  assert (1 ≤ (x `div` 10) `div` 10)%N by (apply N.div_le_lower_bound; lia).
  rewrite (pretty_N_go_step x) by lia.
  rewrite (pretty_N_go_step (x `div` 10)) by lia.
  rewrite (pretty_N_go_step ((x `div` 10) `div` 10)) by lia.
  rewrite pretty_N_go_app.
  replace (((x `div` 10) `div` 10) `div` 10)%N with (x `div` 1000)%N
    by (rewrite !N.Div0.div_div; reflexivity).
  eexists; split; [|reflexivity]. reflexivity.
Qed.

Lemma pretty_Zpos (p : positive) :
  pretty (Z.pos p) = pretty_N_go (N.pos p) "".
Proof. reflexivity. Qed.

(** Without its last three digits, a clock reading in milliseconds is the
    reading in seconds. *)
Lemma seconds_string_div (now : Z) :
  1000 ≤ now → JS.seconds_string now = JS.toString (now `div` 1000).
Proof.
  intros Hnow. unfold JS.seconds_string, JS.toString.
  destruct now as [|p|p]; try lia.
  assert (Hq : 1 ≤ Z.pos p `div` 1000) by (apply Z.div_le_lower_bound; lia).
  destruct (Z.pos p `div` 1000) as [|q|q] eqn:Hdiv; try lia.
  assert (HN : (N.pos p `div` 1000)%N = N.pos q).
  { apply N2Z.inj. rewrite N2Z.inj_div. simpl. exact Hdiv. }
  rewrite !pretty_Zpos.
  destruct (pretty_N_go_1000 (N.pos p)) as (tail & Hlen & ->); [lia|].
  rewrite HN. by apply slice_0_neg_app.
Qed.

Lemma digit_value_pretty (d : N) :
  (d < 10)%N → JS.digit_value 10 (pretty_N_char d) = Some (Z.of_N d).
Proof.
  intros Hd.
  assert (d = 0 ∨ d = 1 ∨ d = 2 ∨ d = 3 ∨ d = 4 ∨ d = 5 ∨ d = 6 ∨ d = 7
          ∨ d = 8 ∨ d = 9)%N as Hcases by lia.
  repeat (destruct Hcases as [->|Hcases]; [reflexivity|]).
  subst; reflexivity.
Qed.

(** Reading back the digits printed for [x]. *)
Lemma parse_digits_pretty (x : N) (s : string) :
  (0 < x)%N →
  JS.parse_digits 10 None (pretty_N_go x s)
  = JS.parse_digits 10 (Some (Z.of_N x)) s.
Proof.
  revert s. induction (N.lt_wf_0 x) as [x _ IH]; intros s Hx.
  rewrite pretty_N_go_step by done.
  pose proof (N.div_mod x 10 ltac:(done)) as Hdm.
  pose proof (N.mod_lt x 10 ltac:(done)) as Hlt.
  destruct (decide (x `div` 10 = 0)%N) as [Hz|Hnz].
  - rewrite Hz, pretty_N_go_0. simpl.
    rewrite digit_value_pretty by done. simpl.
    f_equal. f_equal. lia.
  - rewrite IH by (try apply N.div_lt; lia). simpl.
    rewrite digit_value_pretty by done. simpl.
    f_equal. f_equal. lia.
Qed.

(** The text printed for [x > 0] starts with a digit from 1 to 9. *)
Lemma pretty_N_go_head (x : N) (s : string) :
  (0 < x)%N →
  ∃ d rest, (1 ≤ d ≤ 9)%N ∧ pretty_N_go x s = String (pretty_N_char d) rest.
Proof.
  revert s. induction (N.lt_wf_0 x) as [x _ IH]; intros s Hx.
  rewrite pretty_N_go_step by done.
  pose proof (N.div_mod x 10 ltac:(done)) as Hdm.
  pose proof (N.mod_lt x 10 ltac:(done)) as Hlt.
  destruct (decide (x `div` 10 = 0)%N) as [Hz|Hnz].
  - rewrite Hz, pretty_N_go_0. exists (x `mod` 10)%N, s. split; [lia|done].
  - apply IH; [apply N.div_lt|]; lia.
Qed.

Lemma parseInt_string_head (d : N) (rest : string) :
  (1 ≤ d ≤ 9)%N →
  JS.parseInt_string (String (pretty_N_char d) rest)
  = match JS.parse_digits 10 None (String (pretty_N_char d) rest) with
    | Some z => JS.Int z
    | None => JS.NaN
    end.
Proof.
  intros Hd.
  assert (d = 1 ∨ d = 2 ∨ d = 3 ∨ d = 4 ∨ d = 5 ∨ d = 6 ∨ d = 7
          ∨ d = 8 ∨ d = 9)%N as Hcases by lia.
  assert (Htrim : JS.trim_start (String (pretty_N_char d) rest)
                  = String (pretty_N_char d) rest).
  { destruct_or!; subst d; destruct rest as [|c2 [|c3 rest3]];
      reflexivity. }
  unfold JS.parseInt_string. rewrite Htrim.
  destruct_or!; subst d; cbn [pretty_N_char];
    (destruct (JS.parse_digits 10 None _); [f_equal; lia|done]).
Qed.

(** [parseInt] reads back what [toString] prints. *)
Lemma parseInt_toString (n : Z) :
  0 ≤ n → JS.parseInt (Some (JS.toString n)) = JS.Int n.
Proof.
  intros Hn. destruct n as [|p|p]; [reflexivity| |lia].
  unfold JS.parseInt, JS.toString. rewrite pretty_Zpos.
  destruct (pretty_N_go_head (N.pos p) "") as (d & rest & Hd & Heq); [lia|].
  rewrite Heq, parseInt_string_head by done.
  rewrite <- Heq, parse_digits_pretty by lia. simpl.
  f_equal.
Qed.

(** The current time of line 137. *)
Lemma curTime_seconds (now : Z) :
  1000 ≤ now →
  JS.parseInt (Some (JS.seconds_string now)) = JS.Int (now `div` 1000).
Proof.
  intros Hnow. rewrite seconds_string_div by done.
  apply parseInt_toString. apply Z.div_pos; lia.
Qed.

(** ** Promises *)

Lemma reject_settled {A : Type} (e e' : Error) (p : Promise A) :
  reject e' (reject e p) = reject e p.
Proof. by destruct p. Qed.

Lemma resolve_rejected {A : Type} (a : A) (e : Error) :
  resolve a (Rejected e) = Rejected e.
Proof. reflexivity. Qed.

(** ** Lists *)

Lemma flat_map_all_nil {A B : Type} (f : A → list B) (l : list A) :
  (∀ x, x ∈ l → f x = []) → flat_map f l = [].
Proof.
  induction l as [|x l IH]; intros Hf; [reflexivity|]. simpl.
  rewrite Hf by left. apply IH. intros y Hy. apply Hf. by right.
Qed.

Lemma flat_map_nil_inv {A B : Type} (f : A → list B) (l : list A) (x : A) :
  flat_map f l = [] → x ∈ l → f x = [].
Proof.
  induction l as [|y l IH]; intros Hnil Hx; [by apply elem_of_nil in Hx|].
  simpl in Hnil. apply app_eq_nil in Hnil as [Hy Hl].
  apply elem_of_cons in Hx as [->|Hx]; auto.
Qed.

(** A loop that only appends to its log is the concatenation of what each
    turn appends. *)
Lemma foldl_log {A B : Type} (f : list B → A → list B) (l : list A)
    (log : list B) :
  (∀ log x, f log x = log ++ f [] x) →
  foldl f log l = log ++ flat_map (f []) l.
Proof.
  intros Hf. revert log. induction l as [|x l IH]; intros log; simpl.
  - by rewrite app_nil_r.
  - rewrite IH, (Hf log x). by rewrite <- app_assoc.
Qed.

Lemma seq_split_at (n i : nat) :
  (i < n)%nat → seq 0 n = seq 0 i ++ i :: seq (S i) (n - S i).
Proof.
  intros Hi. replace n with (i + S (n - S i))%nat at 1 by lia.
  by rewrite seq_app.
Qed.

(** When one index only contributes, the concatenation is what it gives. *)
Lemma flat_map_seq_single {B : Type} (f : nat → list B) (n i : nat) :
  (i < n)%nat → (∀ j, (j < n)%nat → j ≠ i → f j = []) →
  flat_map f (seq 0 n) = f i.
Proof.
  intros Hi Hf. rewrite (seq_split_at n i Hi), flat_map_app. simpl.
  rewrite !flat_map_all_nil, app_nil_r; [done|..].
  - intros j [? ?]%elem_of_seq. apply Hf; lia.
  - intros j [? ?]%elem_of_seq. apply Hf; lia.
Qed.

(** When two neighbours only contribute, it is what they give, in order. *)
Lemma flat_map_seq_pair {B : Type} (f : nat → list B) (n i : nat) :
  (S i < n)%nat → (∀ j, (j < n)%nat → j ≠ i → j ≠ S i → f j = []) →
  flat_map f (seq 0 n) = f i ++ f (S i).
Proof.
  intros Hi Hf. rewrite (seq_split_at n i) by lia. rewrite flat_map_app. simpl.
  destruct (n - S i)%nat as [|m] eqn:Hm; [lia|]. simpl.
  rewrite !flat_map_all_nil, app_nil_r; [done|..].
  - intros j [? ?]%elem_of_seq. apply Hf; lia.
  - intros j [? ?]%elem_of_seq. apply Hf; lia.
Qed.

(** ** validateChain *)

Section Validation.
Context {libs : Libraries}.

Lemma validateChain_turn_app (self : Blockchain) (log : list Error) (idx : nat) :
  validateChain_turn self log idx = log ++ validateChain_turn self [] idx.
Proof.
  unfold validateChain_turn.
  destruct (chain self !! idx) as [curBlock|]; [|by rewrite app_nil_r].
  destruct (validate curBlock); simpl;
    repeat case_bool_decide; repeat case_match;
    rewrite ?app_nil_r, <- ?app_assoc; done.
Qed.

(** The loop visits every index, in ascending order, and never stops. *)
Lemma validateChain_turns (self : Blockchain) :
  validateChain self
  = flat_map (validateChain_turn self []) (seq 0 (length (chain self))).
Proof.
  unfold validateChain. rewrite foldl_log; [done|].
  intros. apply validateChain_turn_app.
Qed.

Lemma validateChain_turn_detected (self : Blockchain) (idx : nat)
    (curBlock : Block) :
  chain self !! idx = Some curBlock →
  validateChain_turn self [] idx = detected_errors self idx curBlock.
Proof.
  intros Hcur.
  unfold validateChain_turn, detected_errors, self_check_errors, linkage_errors.
  rewrite Hcur.
  destruct idx as [|prevIndex]; simpl.
  - by destruct (validate curBlock).
  - rewrite Nat.sub_0_r.
    destruct (chain self !! prevIndex) as [prevBlock|];
      destruct (validate curBlock); simpl; repeat case_bool_decide; done.
Qed.

Lemma flat_map_fmap {A B C : Type} (f : B → list C) (g : A → B) (l : list A) :
  flat_map f (g <$> l) = flat_map (λ x, f (g x)) l.
Proof.
  induction l as [|x l IH]; [reflexivity|]. csimpl. by rewrite IH.
Qed.

Lemma flat_map_lookup_imap {A B : Type} (g : nat → A → list B) (l : list A) :
  flat_map (λ idx, from_option (g idx) [] (l !! idx)) (seq 0 (length l))
  = concat (imap g l).
Proof.
  revert g. induction l as [|x l IH]; intros g; [reflexivity|].
  cbn [length seq flat_map imap concat].
  rewrite <- fmap_S_seq, flat_map_fmap. simpl. f_equal.
  by rewrite <- (IH (g ∘ S)).
Qed.

Lemma validateChain_all_detected (self : Blockchain) :
  validateChain self = all_detected_errors self.
Proof.
  rewrite validateChain_turns. unfold all_detected_errors.
  rewrite <- flat_map_lookup_imap. apply flat_map_ext. intros idx.
  destruct (chain self !! idx) as [curBlock|] eqn:Hcur; simpl.
  - by apply validateChain_turn_detected.
  - unfold validateChain_turn. by rewrite Hcur.
Qed.

Lemma detected_errors_nil (self : Blockchain) (idx : nat) (curBlock : Block) :
  chain self !! idx = Some curBlock →
  detected_errors self idx curBlock = [] ↔
  validate curBlock = true
  ∧ (idx ≠ 0%nat → ∃ prevBlock, chain self !! (idx - 1)%nat = Some prevBlock
                     ∧ previousBlockHash curBlock = hash prevBlock).
Proof.
  intros Hcur. unfold detected_errors, self_check_errors, linkage_errors.
  destruct idx as [|prevIndex]; simpl.
  - rewrite app_nil_r. destruct (validate curBlock); split; try done.
    by intros [? _].
  - rewrite Nat.sub_0_r.
    destruct (lookup_lt_is_Some_2 (chain self) prevIndex) as [prevBlock Hprev].
    { apply lookup_lt_Some in Hcur. lia. }
    rewrite Hprev.
    destruct (validate curBlock); case_bool_decide as Hlink; simpl;
      split; try done.
    + intros _. split; [done|]. intros _. by exists prevBlock.
    + intros [_ Hex]. destruct Hex as (p & Hp & Heq); [done|]. congruence.
    + by intros [? _].
    + by intros [? _].
Qed.

Lemma validateChain_nil (self : Blockchain) :
  validateChain self = [] ↔
  ∀ idx curBlock, chain self !! idx = Some curBlock →
    detected_errors self idx curBlock = [].
Proof.
  rewrite validateChain_turns. split.
  - intros Hnil idx curBlock Hcur.
    rewrite <- (validateChain_turn_detected _ _ _ Hcur).
    apply (flat_map_nil_inv _ _ idx Hnil).
    apply elem_of_seq. apply lookup_lt_Some in Hcur. lia.
  - intros Hall. apply flat_map_all_nil. intros idx [_ Hidx]%elem_of_seq.
    destruct (lookup_lt_is_Some_2 (chain self) idx) as [curBlock Hcur]; [lia|].
    rewrite (validateChain_turn_detected _ _ _ Hcur). by apply Hall.
Qed.

End Validation.

(** ** A chain with one block overwritten *)

Section Tampering.
Context {libs : Libraries}.

Lemma valid_chain_block (self : Blockchain) (idx : nat) (block : Block) :
  validateChain self = [] → chain self !! idx = Some block →
  self_check_errors block = [] ∧ linkage_errors self idx block = [].
Proof.
  intros Hvalid Hblock.
  apply app_eq_nil. by apply (proj1 (validateChain_nil self) Hvalid).
Qed.

Lemma self_check_errors_valid (block : Block) :
  self_check_errors block = [] → hash block = Some (digest block).
Proof.
  unfold self_check_errors, validate. by case_bool_decide.
Qed.

Lemma self_check_errors_invalid (block : Block) :
  hash block ≠ Some (digest block) → self_check_errors block = [Block_not_valid].
Proof.
  unfold self_check_errors, validate. by case_bool_decide.
Qed.

(** The linkage check of a block reads its previous hash and the hash
    stored just before it, nothing else. *)
Lemma linkage_errors_ext (self self' : Blockchain) (idx : nat)
    (block block' : Block) :
  previousBlockHash block' = previousBlockHash block →
  hash <$> chain self' !! pred idx = hash <$> chain self !! pred idx →
  linkage_errors self' idx block' = linkage_errors self idx block.
Proof.
  intros Hprev Hhash. unfold linkage_errors.
  destruct idx as [|prevIndex]; [done|]. simpl in Hhash. rewrite Hprev.
  destruct (chain self' !! prevIndex), (chain self !! prevIndex);
    simplify_eq/=; [|done]. by rewrite Hhash.
Qed.

Lemma linkage_errors_broken (self : Blockchain) (idx : nat)
    (block prevBlock : Block) :
  chain self !! idx = Some prevBlock →
  previousBlockHash block ≠ hash prevBlock →
  linkage_errors self (S idx) block = [Incompatible_previous_hash].
Proof.
  intros Hprev Hne. unfold linkage_errors. rewrite Hprev.
  by case_bool_decide.
Qed.

Lemma linkage_errors_link (self : Blockchain) (idx : nat)
    (block prevBlock : Block) :
  chain self !! idx = Some prevBlock →
  linkage_errors self (S idx) block = [] →
  previousBlockHash block = hash prevBlock.
Proof.
  intros Hprev. unfold linkage_errors. rewrite Hprev.
  by case_bool_decide.
Qed.

Variable self : Blockchain.
Variable f : Block → Block.
Variable idx : nat.
Variable block : Block.
Hypothesis f_previousBlockHash :
  ∀ b, previousBlockHash (f b) = previousBlockHash b.
Hypothesis self_valid : validateChain self = [].
Hypothesis self_idx : chain self !! idx = Some block.

Lemma overwrite_lookup : chain (overwrite f idx self) !! idx = Some (f block).
Proof. simpl. by rewrite list_lookup_alter_eq, self_idx. Qed.

Lemma overwrite_lookup_ne (j : nat) :
  j ≠ idx → chain (overwrite f idx self) !! j = chain self !! j.
Proof. intros Hj. simpl. by rewrite list_lookup_alter_ne by lia. Qed.

Lemma overwrite_length :
  length (chain (overwrite f idx self)) = length (chain self).
Proof. simpl. apply length_alter. Qed.

(** Blocks other than the altered one and its successor are still sound. *)
Lemma overwrite_elsewhere (j : nat) (other : Block) :
  j ≠ idx → j ≠ S idx → chain (overwrite f idx self) !! j = Some other →
  detected_errors (overwrite f idx self) j other = [].
Proof.
  intros Hj HSj Hother. rewrite overwrite_lookup_ne in Hother by done.
  destruct (valid_chain_block self j other self_valid Hother) as [Hself Hlink].
  unfold detected_errors. rewrite Hself. simpl.
  destruct j as [|j']; [done|].
  etrans; [|exact Hlink]. apply linkage_errors_ext; [done|]. simpl.
  rewrite list_lookup_alter_ne; [done|lia].
Qed.

(** The altered block still links to the block before it. *)
Lemma overwrite_linkage : linkage_errors (overwrite f idx self) idx (f block) = [].
Proof.
  destruct (valid_chain_block self idx block self_valid self_idx) as [_ Hlink].
  destruct idx as [|i']; [done|].
  etrans; [|exact Hlink]. apply linkage_errors_ext; [apply f_previousBlockHash|].
  simpl. rewrite list_lookup_alter_ne; [done|lia].
Qed.

(** The successor passes its self-check, and its linkage check passes or
    fails with the hash of the altered block. *)
Lemma overwrite_successor (successor : Block) :
  chain self !! S idx = Some successor →
  self_check_errors successor = []
  ∧ previousBlockHash successor = hash block
  ∧ chain (overwrite f idx self) !! S idx = Some successor.
Proof.
  intros Hsucc.
  destruct (valid_chain_block self _ _ self_valid Hsucc) as [Hself Hlink].
  split; [done|]. split.
  - by apply (linkage_errors_link self idx).
  - rewrite overwrite_lookup_ne; [done|lia].
Qed.

End Tampering.

(** ** The claims on validateChain *)

Section ValidationClaims.
Context {libs : Libraries}.

(** The chain validates exactly when every block passes its self-check
    and every block but the first one has the hash of the block before it
    as previous hash. *)
Lemma validateChain_sound_iff (self : Blockchain) :
  validateChain self = [] ↔
  ∀ idx curBlock, chain self !! idx = Some curBlock →
    validate curBlock = true
    ∧ (idx ≠ 0%nat → ∃ prevBlock, chain self !! (idx - 1)%nat = Some prevBlock
                       ∧ previousBlockHash curBlock = hash prevBlock).
Proof.
  rewrite validateChain_nil. split; intros Hall idx curBlock Hcur.
  - apply (detected_errors_nil self idx curBlock Hcur). by apply Hall.
  - apply (detected_errors_nil self idx curBlock Hcur). by apply Hall.
Qed.

(** The same, told by heights, on a chain whose blocks sit at their
    heights. *)
Lemma validateChain_sound_iff_heights (self : Blockchain) :
  heights_are_positions self →
  validateChain self = [] ↔
  ∀ block, block ∈ chain self →
    validate block = true
    ∧ (0 < BlockClass.height block →
       ∃ prevBlock,
         chain self !! Z.to_nat (BlockClass.height block - 1) = Some prevBlock
         ∧ previousBlockHash block = hash prevBlock).
Proof.
  intros Hpos. rewrite validateChain_sound_iff. split.
  - intros Hall block [idx Hcur]%list_elem_of_lookup.
    destruct (Hall idx block Hcur) as [Hself Hlink]. split; [done|].
    rewrite (Hpos idx block Hcur). intros Hidx.
    replace (Z.to_nat (Z.of_nat idx - 1)) with (idx - 1)%nat by lia.
    apply Hlink. lia.
  - intros Hall idx curBlock Hcur.
    destruct (Hall curBlock) as [Hself Hlink].
    { apply list_elem_of_lookup. by exists idx. }
    split; [done|]. intros Hidx.
    rewrite (Hpos idx curBlock Hcur) in Hlink.
    replace (Z.to_nat (Z.of_nat idx - 1)) with (idx - 1)%nat in Hlink by lia.
    apply Hlink. lia.
Qed.

(** After a write to the body of one block that changes its digest, the
    block fails its self-check and nothing else is reported. *)
Lemma corrupt_body_errors (self : Blockchain) (idx : nat) (block : Block)
    (body' : string) :
  validateChain self = [] →
  chain self !! idx = Some block →
  digest (set_body body' block) ≠ digest block →
  validateChain (corrupt_body idx body' self) = [Block_not_valid]
  ∧ detected_errors (corrupt_body idx body' self) idx (set_body body' block)
    = [Block_not_valid]
  ∧ ∀ j other, j ≠ idx → chain (corrupt_body idx body' self) !! j = Some other →
      detected_errors (corrupt_body idx body' self) j other = [].
Proof.
  intros Hvalid Hblock Hdigest. unfold corrupt_body.
  destruct (valid_chain_block self idx block Hvalid Hblock) as [Hself _].
  apply self_check_errors_valid in Hself.
  assert (Hat : detected_errors (overwrite (set_body body') idx self) idx
                  (set_body body' block) = [Block_not_valid]).
  { unfold detected_errors.
    rewrite (overwrite_linkage self (set_body body') idx block) by done.
    rewrite self_check_errors_invalid; [done|]. simpl. congruence. }
  assert (Hother : ∀ j other, j ≠ idx →
            chain (overwrite (set_body body') idx self) !! j = Some other →
            detected_errors (overwrite (set_body body') idx self) j other = []).
  { intros j other Hj Hlookup.
    destruct (decide (j = S idx)) as [->|HSj];
      [|by eapply overwrite_elsewhere].
    rewrite overwrite_lookup_ne in Hlookup by done.
    destruct (overwrite_successor self (set_body body') idx block Hvalid
                Hblock other Hlookup) as (Hs & Hp & _).
    unfold detected_errors. rewrite Hs, app_nil_l.
    unfold linkage_errors.
    rewrite (overwrite_lookup self (set_body body') idx block Hblock).
    by rewrite bool_decide_eq_true_2. }
  split; [|done].
  rewrite validateChain_turns, overwrite_length.
  rewrite (flat_map_seq_single _ _ idx).
  - rewrite (validateChain_turn_detected _ _ (set_body body' block)); [done|].
    by apply overwrite_lookup.
  - by apply lookup_lt_Some in Hblock.
  - intros j Hj Hne.
    destruct (lookup_lt_is_Some_2 (chain (overwrite (set_body body') idx self)) j)
      as [other Hlookup]; [by rewrite overwrite_length|].
    rewrite (validateChain_turn_detected _ _ other Hlookup). by apply Hother.
Qed.

(** C6.  [validateChain] resolves with the errors of every block of the
    chain, block after block in ascending order, whatever was found
    before; the list is empty exactly when every block passes its
    self-check and every block above the first links to the hash of its
    predecessor (told by index, and by height where blocks sit at their
    heights); and when the body of one block of a sound chain is
    overwritten so that its digest changes, the list is the one error
    [Block not valid], which comes from that block. *)
Theorem validateChain_reports_all_errors (self : Blockchain) :
  validateChain self = all_detected_errors self
  ∧ (validateChain self = [] ↔
     ∀ idx curBlock, chain self !! idx = Some curBlock →
       validate curBlock = true
       ∧ (idx ≠ 0%nat →
          ∃ prevBlock, chain self !! (idx - 1)%nat = Some prevBlock
            ∧ previousBlockHash curBlock = hash prevBlock))
  ∧ (heights_are_positions self →
     validateChain self = [] ↔
     ∀ block, block ∈ chain self →
       validate block = true
       ∧ (0 < BlockClass.height block →
          ∃ prevBlock,
            chain self !! Z.to_nat (BlockClass.height block - 1) = Some prevBlock
            ∧ previousBlockHash block = hash prevBlock))
  ∧ (∀ idx block body',
       validateChain self = [] →
       chain self !! idx = Some block →
       digest (set_body body' block) ≠ digest block →
       validateChain (corrupt_body idx body' self) = [Block_not_valid]
       ∧ detected_errors (corrupt_body idx body' self) idx
           (set_body body' block) = [Block_not_valid]
       ∧ ∀ j other, j ≠ idx →
           chain (corrupt_body idx body' self) !! j = Some other →
           detected_errors (corrupt_body idx body' self) j other = []).
Proof.
  split; [apply validateChain_all_detected|].
  split; [apply validateChain_sound_iff|].
  split; [apply validateChain_sound_iff_heights|].
  intros idx block body'. apply corrupt_body_errors.
Qed.

(** C9.  When the stored hash of one block of a sound chain is overwritten
    by another value, and the block has a successor, [validateChain]
    resolves with exactly two errors: [Block not valid], from the block
    itself, then [Incompatible previous hash], from its successor; no other
    block contributes. *)
Theorem validateChain_altered_hash (self : Blockchain) (idx : nat)
    (block successor : Block) (hash' : option string) :
  validateChain self = [] →
  chain self !! idx = Some block →
  chain self !! S idx = Some successor →
  hash' ≠ hash block →
  validateChain (corrupt_hash idx hash' self)
  = [Block_not_valid; Incompatible_previous_hash]
  ∧ chain (corrupt_hash idx hash' self) !! idx = Some (set_hash hash' block)
  ∧ detected_errors (corrupt_hash idx hash' self) idx (set_hash hash' block)
    = [Block_not_valid]
  ∧ chain (corrupt_hash idx hash' self) !! S idx = Some successor
  ∧ detected_errors (corrupt_hash idx hash' self) (S idx) successor
    = [Incompatible_previous_hash]
  ∧ ∀ j other, j ≠ idx → j ≠ S idx →
      chain (corrupt_hash idx hash' self) !! j = Some other →
      detected_errors (corrupt_hash idx hash' self) j other = [].
Proof.
  intros Hvalid Hblock Hsucc Hhash. unfold corrupt_hash.
  destruct (valid_chain_block self idx block Hvalid Hblock) as [Hself _].
  apply self_check_errors_valid in Hself.
  destruct (overwrite_successor self (set_hash hash') idx block Hvalid
              Hblock successor Hsucc) as (Hs & Hp & Hlookup).
  pose proof (overwrite_lookup self (set_hash hash') idx block Hblock) as Hat.
  assert (Hfirst : detected_errors (overwrite (set_hash hash') idx self) idx
                     (set_hash hash' block) = [Block_not_valid]).
  { unfold detected_errors.
    rewrite (overwrite_linkage self (set_hash hash') idx block) by done.
    rewrite self_check_errors_invalid; [done|]. simpl.
    change (digest (set_hash hash' block)) with (digest block). congruence. }
  assert (Hsecond : detected_errors (overwrite (set_hash hash') idx self)
                      (S idx) successor = [Incompatible_previous_hash]).
  { unfold detected_errors. rewrite Hs, app_nil_l.
    apply (linkage_errors_broken _ idx _ _ Hat). simpl. congruence. }
  assert (Hother : ∀ j other, j ≠ idx → j ≠ S idx →
            chain (overwrite (set_hash hash') idx self) !! j = Some other →
            detected_errors (overwrite (set_hash hash') idx self) j other = []).
  { intros j other ? ? ?. by eapply overwrite_elsewhere. }
  repeat split; try done.
  rewrite validateChain_turns, overwrite_length.
  rewrite (flat_map_seq_pair _ _ idx).
  - rewrite (validateChain_turn_detected _ _ _ Hat), Hfirst.
    by rewrite (validateChain_turn_detected _ _ _ Hlookup), Hsecond.
  - by apply lookup_lt_Some in Hsucc.
  - intros j Hj Hne HneS.
    destruct (lookup_lt_is_Some_2 (chain (overwrite (set_hash hash') idx self)) j)
      as [other Hl]; [by rewrite overwrite_length|].
    rewrite (validateChain_turn_detected _ _ other Hl). by apply Hother.
Qed.

End ValidationClaims.

(** ** _addBlock *)

Section Append.
Context {libs : Libraries}.

(** The two ways [_addBlock] ends. *)
Lemma _addBlock_cases (self : Blockchain) (block : Block) (now : Z) :
  (validateChain self ≠ []
   ∧ _addBlock self block now
     = (self, sealed self block now, Rejected ChainCorruptError))
  ∨ (validateChain self = []
     ∧ _addBlock self block now
       = (committed self (sealed self block now), sealed self block now,
          Resolved (sealed self block now))).
Proof.
  unfold sealed, committed, _addBlock.
  destruct (validateChain self) as [|e errors]; [right|left]; done.
Qed.

(** The cases of the assignments of lines 68-79. *)
Ltac sealed_cases self :=
  unfold sealed, _addBlock;
  destruct (bool_decide (0 < length (validateChain self))%nat); simpl;
  (destruct (bool_decide (0 < length (chain self))%nat) eqn:?;
   [destruct (chain self !! (length (chain self) - 1)%nat) eqn:?|]); simpl.

Lemma sealed_height (self : Blockchain) (block : Block) (now : Z) :
  BlockClass.height (sealed self block now) = height self + 1.
Proof. sealed_cases self; done. Qed.

Lemma sealed_body (self : Blockchain) (block : Block) (now : Z) :
  body (sealed self block now) = body block.
Proof. sealed_cases self; done. Qed.

Lemma sealed_previousBlockHash_first (self : Blockchain) (block : Block)
    (now : Z) :
  chain self = [] →
  previousBlockHash (sealed self block now) = previousBlockHash block.
Proof.
  intros Hnil. sealed_cases self; try done; by rewrite Hnil in *.
Qed.

Lemma sealed_previousBlockHash_tail (self : Blockchain) (block tail : Block)
    (now : Z) :
  last (chain self) = Some tail →
  previousBlockHash (sealed self block now) = hash tail.
Proof.
  intros Htail.
  assert (Hlen : (0 < length (chain self))%nat).
  { destruct (chain self); [done|simpl; lia]. }
  rewrite last_lookup in Htail.
  replace (pred (length (chain self))) with (length (chain self) - 1)%nat
    in Htail by lia.
  sealed_cases self; simplify_eq; try done;
    by rewrite bool_decide_eq_true_2 in * by done.
Qed.

(** A block that comes without a hash passes its self-check once sealed. *)
Lemma sealed_validate (self : Blockchain) (block : Block) (now : Z) :
  hash block = None → validate (sealed self block now) = true.
Proof.
  intros Hnone. unfold validate, digest. apply bool_decide_eq_true_2.
  destruct block as [h ht bd tm pv]. simpl in Hnone. subst h.
  sealed_cases self; done.
Qed.


(** C5.  When [validateChain] reports an error on the chain as it is,
    [_addBlock] rejects with the error the spec calls [ChainCorruptError],
    and the object is the object before: same array, same counter. *)
Theorem _addBlock_refuses_corrupt_chain (self : Blockchain) (block : Block)
    (now : Z) :
  validateChain self ≠ [] →
  (_addBlock self block now).2 = Rejected ChainCorruptError
  ∧ (_addBlock self block now).1.1 = self
  ∧ chain (_addBlock self block now).1.1 = chain self
  ∧ height (_addBlock self block now).1.1 = height self.
Proof.
  intros Herrors.
  destruct (_addBlock_cases self block now) as [[_ Heq]|[Hnil _]]; [|done].
  by rewrite Heq.
Qed.

End Append.

(** ** The states of the object *)

Section Reachable.
Context {libs : Libraries} {codec : BodyCodec}.

Lemma constructor_fields_counted : counted constructor_fields.
Proof. split; [done|]. by intros idx block ?. Qed.

(** A commit of a block of the next height keeps the counter right. *)
Lemma committed_counted (self : Blockchain) (block : Block) :
  counted self → BlockClass.height block = height self + 1 →
  counted (committed self block).
Proof.
  intros [Hheight Hpos] Hblock. split.
  - unfold committed; simpl. rewrite length_app. simpl. lia.
  - intros idx other. unfold committed; simpl.
    intros [Hold|[Hlen Hnew]]%lookup_app_Some; [by apply Hpos|].
    destruct (idx - length (chain self))%nat eqn:Hidx; simplify_eq/=.
    lia.
Qed.

(** A commit of a block that is linked to the tail keeps the chain
    linked. *)
Lemma committed_hash_linked (self : Blockchain) (block : Block) :
  hash_linked self → BlockClass.height block = height self + 1 →
  (∀ tail, last (chain self) = Some tail → previousBlockHash block = hash tail) →
  hash_linked (committed self block).
Proof.
  intros [Hcounted Hne Hgenesis Hprev] Hheight Htail. split.
  - by apply committed_counted.
  - unfold committed; simpl. by destruct (chain self).
  - intros first. unfold committed; simpl.
    rewrite lookup_app_l; [apply Hgenesis|].
    destruct (chain self); [done|simpl; lia].
  - intros idx cur prevBlock. unfold committed; simpl.
    intros [Hcur|[Hlen Hcur]]%lookup_app_Some.
    + rewrite lookup_app_l by (apply lookup_lt_Some in Hcur; lia).
      by apply Hprev.
    + destruct (S idx - length (chain self))%nat eqn:Hidx; simplify_eq/=.
      assert (Hlast : idx = pred (length (chain self))) by lia.
      rewrite lookup_app_l by lia. intros Hp. apply Htail.
      by rewrite last_lookup, <- Hlast.
Qed.

(** After [_addBlock] the object is the one before or a commit of the
    sealed block. *)
Lemma _addBlock_state (self : Blockchain) (block : Block) (now : Z) :
  (_addBlock self block now).1.1 = self
  ∨ (_addBlock self block now).1.1 = committed self (sealed self block now).
Proof.
  destruct (_addBlock_cases self block now) as [[_ ->]|[_ ->]]; auto.
Qed.

Lemma initializeChain_state (self : Blockchain) (now : Z) :
  (initializeChain self now).1
  = if bool_decide (height self = -1)
    then (_addBlock self (new_Block (GenesisData "Genesis Block")) now).1.1
    else self.
Proof.
  unfold initializeChain. case_bool_decide; [|done].
  by destruct (_addBlock _ _ _) as [[? ?] [?|?|]].
Qed.

(** [submitStar] leaves the object as its call of [_addBlock] leaves it. *)
Lemma submitStar_state (self : Blockchain)
    (address message signature : string) (star : Star) (now now' : Z) :
  (submitStar self address message signature star now now').1
  = (_addBlock self (new_Block (ClaimData address star)) now').1.1.
Proof.
  unfold submitStar.
  destruct (bitcoinMessage_verify message address signature);
    by destruct (_addBlock _ _ _) as [[? ?] ?].
Qed.

(** A commit of a block that passes its self-check and is linked to the
    tail keeps the chain sound. *)
Lemma committed_valid (self : Blockchain) (block : Block) :
  validateChain self = [] → validate block = true →
  (∀ tail, last (chain self) = Some tail → previousBlockHash block = hash tail) →
  validateChain (committed self block) = [].
Proof.
  intros Hvalid Hself Htail. apply validateChain_nil.
  intros idx cur. unfold committed at 1; simpl.
  intros [Hcur|[Hlen Hcur]]%lookup_app_Some.
  - destruct (valid_chain_block self idx cur Hvalid Hcur) as [Hs Hl].
    unfold detected_errors. rewrite Hs, app_nil_l.
    etrans; [|exact Hl]. apply linkage_errors_ext; [done|].
    unfold committed; simpl. rewrite lookup_app_l; [done|].
    apply lookup_lt_Some in Hcur. lia.
  - destruct (idx - length (chain self))%nat eqn:Hidx; simplify_eq/=.
    unfold detected_errors, self_check_errors. rewrite Hself, app_nil_l.
    destruct idx as [|prevIndex]; [done|].
    unfold linkage_errors, committed; simpl.
    rewrite lookup_app_l by lia.
    destruct (chain self !! prevIndex) as [tail|] eqn:Hprev; [|done].
    rewrite bool_decide_eq_true_2; [done|]. apply Htail.
    rewrite last_lookup. by replace (pred (length (chain self))) with prevIndex
      by lia.
Qed.

(** [_addBlock] taken alone on a block that comes without a hash keeps
    the chain sound, so the chain of an object that only went through
    [new Blockchain()] and calls of [submitStar] that did not overlap
    validates. *)
Lemma _addBlock_valid (self : Blockchain) (block : Block) (now : Z) :
  validateChain self = [] → hash block = None →
  validateChain (_addBlock self block now).1.1 = [].
Proof.
  intros Hvalid Hnone.
  destruct (_addBlock_state self block now) as [->| ->]; [done|].
  apply committed_valid; [done|by apply sealed_validate|].
  intros tail. apply sealed_previousBlockHash_tail.
Qed.

Lemma new_Blockchain_valid (now : Z) : validateChain (new_Blockchain now) = [].
Proof.
  unfold new_Blockchain. rewrite initializeChain_state.
  rewrite bool_decide_eq_true_2 by done. by apply _addBlock_valid.
Qed.

Lemma submitStar_valid (self : Blockchain)
    (address message signature : string) (star : Star) (now now' : Z) :
  validateChain self = [] →
  validateChain (submitStar self address message signature star now now').1
  = [].
Proof.
  intros Hvalid. rewrite submitStar_state. by apply _addBlock_valid.
Qed.

Lemma _addBlock_counted (self : Blockchain) (block : Block) (now : Z) :
  counted self → counted (_addBlock self block now).1.1.
Proof.
  intros Hinv. destruct (_addBlock_state self block now) as [->| ->]; [done|].
  apply committed_counted; [done|apply sealed_height].
Qed.

Lemma _addBlock_hash_linked (self : Blockchain) (block : Block) (now : Z) :
  hash_linked self → hash_linked (_addBlock self block now).1.1.
Proof.
  intros Hinv. destruct (_addBlock_state self block now) as [->| ->]; [done|].
  apply committed_hash_linked; [done|apply sealed_height|].
  intros tail. apply sealed_previousBlockHash_tail.
Qed.

Lemma step_hash_linked (self self' : Blockchain) :
  step self self' → hash_linked self → hash_linked self'.
Proof.
  intros Hstep Hinv. destruct Hstep.
  - by apply _addBlock_hash_linked.
  - rewrite initializeChain_state. case_bool_decide; [|done].
    by apply _addBlock_hash_linked.
  - rewrite submitStar_state. by apply _addBlock_hash_linked.
Qed.

(** [new Blockchain()] is the Genesis block alone. *)
Lemma new_Blockchain_genesis (now : Z) :
  new_Blockchain now
  = committed constructor_fields
      (sealed constructor_fields (new_Block (GenesisData "Genesis Block")) now).
Proof. reflexivity. Qed.

Lemma new_Blockchain_hash_linked (now : Z) : hash_linked (new_Blockchain now).
Proof.
  rewrite new_Blockchain_genesis.
  set (genesis := sealed _ _ _).
  assert (Hheight : BlockClass.height genesis = 0) by apply sealed_height.
  split.
  - apply committed_counted;
      [apply constructor_fields_counted|apply sealed_height].
  - done.
  - intros block [= <-]. unfold genesis.
    by rewrite sealed_previousBlockHash_first.
  - intros idx block prevBlock Hcur. by destruct idx.
Qed.

Lemma reachable_hash_linked (self : Blockchain) :
  reachable self → hash_linked self.
Proof.
  intros [now Hsteps]. revert self Hsteps.
  apply (rtc_ind_r (λ self, hash_linked self)).
  - apply new_Blockchain_hash_linked.
  - intros self self' _ Hstep IH. by apply (step_hash_linked self).
Qed.

End Reachable.

(** ** The ownership challenge and the claim *)

(** C8.  At a clock reading of at least one second, the message is the
    address, a colon, the clock reading in whole seconds in decimal, and
    [:starRegistry]. *)
Theorem requestMessageOwnershipVerification_format (address : string)
    (now : Z) :
  1000 ≤ now →
  requestMessageOwnershipVerification address now
  = Resolved (address +:+ ":" +:+ JS.toString (now `div` 1000)
              +:+ ":starRegistry").
Proof.
  intros Hnow. unfold requestMessageOwnershipVerification.
  by rewrite seconds_string_div.
Qed.

Section Claim.
Context {libs : Libraries} {codec : BodyCodec}.

(** What the executor of [submitStar] does once it has [msgTime],
    [curTime] and the outcome of the signature check, on a chain that
    validates: it commits the block in every case; the promise is the
    first of the settlements on its way. *)
Lemma submitStar_valid_chain (self : Blockchain)
    (address message signature : string) (star : Star) (now now' : Z) :
  validateChain self = [] →
  let newBlock := sealed self (new_Block (ClaimData address star)) now' in
  let expired :=
    JS.gt (JS.sub (JS.parseInt (Some (JS.seconds_string now)))
                  (JS.parseInt (JS.split ":" message !! 1%nat)))
          (JS.Int elapsed_limit) in
  submitStar self address message signature star now now'
  = (committed self newBlock,
     if expired then Rejected ExpiredChallengeError
     else match bitcoinMessage_verify message address signature with
          | Returns true => Resolved newBlock
          | Returns false => Rejected InvalidSignatureError
          | Throws error => Rejected error
          end).
Proof.
  intros Hvalid newBlock expired. unfold submitStar. fold expired.
  destruct (_addBlock_cases self (new_Block (ClaimData address star)) now')
    as [[Hne _]|[_ ->]]; [done|]. fold newBlock.
  by destruct expired,
    (bitcoinMessage_verify message address signature) as [[|]|error].
Qed.

(** C1 fails on the code: a claim whose signature check returns false or
    throws is rejected, and the block is committed all the same.  On a
    chain that validates, the array has one more block and the counter
    is one more after the rejected call. *)
Theorem submitStar_rejected_yet_committed (self : Blockchain)
    (address message signature : string) (star : Star) (now now' : Z) :
  validateChain self = [] →
  bitcoinMessage_verify message address signature ≠ Returns true →
  ∃ error newBlock,
    submitStar self address message signature star now now'
    = (mkBlockchain (chain self ++ [newBlock]) (height self + 1),
       Rejected error)
    ∧ body newBlock = encodeBody (ClaimData address star).
Proof.
  intros Hvalid Hverify.
  rewrite submitStar_valid_chain by done. unfold committed.
  rewrite sealed_height.
  destruct (JS.gt _ _);
    [|destruct (bitcoinMessage_verify message address signature)
        as [[|]|error]; [done|..]];
    eexists _, _; (split; [reflexivity|apply sealed_body]).
Qed.

(** The time check of line 140 passes at every clock reading a [Date] can
    give, for every timestamp that is not negative. *)
Lemma elapsed_below_limit (now msgTime : Z) :
  1000 ≤ now ≤ JS.max_time → 0 ≤ msgTime →
  JS.gt (JS.sub (JS.parseInt (Some (JS.seconds_string now))) (JS.Int msgTime))
        (JS.Int elapsed_limit) = false.
Proof.
  intros [Hnow Hmax] HmsgTime. rewrite curTime_seconds by done. simpl.
  apply bool_decide_eq_false_2.
  assert (now `div` 1000 ≤ JS.max_time)
    by (apply Z.div_le_upper_bound; unfold JS.max_time in *; lia).
  unfold elapsed_limit, JS.max_time in *. lia.
Qed.

(** A claim with a valid signature is resolved with the committed block,
    however old its message is. *)
Lemma submitStar_resolves_valid_signature (self : Blockchain)
    (address message signature : string) (star : Star) (now now' msgTime : Z) :
  validateChain self = [] →
  JS.parseInt (JS.split ":" message !! 1%nat) = JS.Int msgTime →
  0 ≤ msgTime →
  1000 ≤ now ≤ JS.max_time →
  bitcoinMessage_verify message address signature = Returns true →
  submitStar self address message signature star now now'
  = (committed self (sealed self (new_Block (ClaimData address star)) now'),
     Resolved (sealed self (new_Block (ClaimData address star)) now')).
Proof.
  intros Hvalid HmsgTime Hpos Hnow Hverify.
  rewrite submitStar_valid_chain by done.
  by rewrite HmsgTime, elapsed_below_limit, Hverify.
Qed.

(** C2 fails on the code: the elapsed time is compared with the literal of
    line 140, not with 300.  A claim with a valid signature whose message
    carries a timestamp more than 300 seconds before the clock reading is
    resolved with the block, which is committed. *)
Theorem submitStar_accepts_expired_challenge (self : Blockchain)
    (address message signature : string) (star : Star) (now now' msgTime : Z) :
  validateChain self = [] →
  JS.parseInt (JS.split ":" message !! 1%nat) = JS.Int msgTime →
  0 ≤ msgTime →
  1000 ≤ now ≤ JS.max_time →
  300 < now `div` 1000 - msgTime →
  bitcoinMessage_verify message address signature = Returns true →
  ∃ newBlock,
    submitStar self address message signature star now now'
    = (mkBlockchain (chain self ++ [newBlock]) (height self + 1),
       Resolved newBlock).
Proof.
  intros Hvalid HmsgTime Hpos Hnow Hold Hverify.
  rewrite (submitStar_resolves_valid_signature _ _ _ _ _ _ _ msgTime) by done.
  unfold committed. rewrite sealed_height. by eexists.
Qed.

(** One turn of the loop adds the star the block contributes, when the
    body of the block decodes. *)
Lemma getStars_turn_owned (address : string) (stars : list Star)
    (block : Block) :
  (0 < BlockClass.height block → is_Some (decodeBody (body block))) →
  getStars_turn address stars block
  = Some (stars ++ option_list (star_owned_by address block)).
Proof.
  intros Hdecodes. unfold getStars_turn, star_owned_by, getBData.
  case_bool_decide as Hheight; [|by rewrite app_nil_r].
  destruct (Hdecodes Hheight) as [[data|owner star] ->].
  - by rewrite app_nil_r.
  - case_bool_decide; [done|by rewrite app_nil_r].
Qed.

Lemma getStars_loop_owned (address : string) (blocks : list Block)
    (stars : list Star) :
  (∀ block, block ∈ blocks → 0 < BlockClass.height block →
     is_Some (decodeBody (body block))) →
  foldl (λ stars block, stars ≫= λ stars, getStars_turn address stars block)
        (Some stars) blocks
  = Some (stars ++ omap (star_owned_by address) blocks).
Proof.
  revert stars. induction blocks as [|block blocks IH]; intros stars Hdecode.
  - by rewrite app_nil_r.
  - simpl. rewrite getStars_turn_owned by (apply Hdecode; left).
    rewrite IH by (intros b Hb; apply Hdecode; by right).
    rewrite <- app_assoc. f_equal. f_equal.
    by destruct (star_owned_by address block).
Qed.

(** C7.  On a chain whose bodies above Genesis decode,
    [getStarsByWalletAddress] resolves with the decoded stars of the
    blocks of height above 0 whose decoded owner is the address, in the
    order of the chain. *)
Theorem getStarsByWalletAddress_owned_stars (self : Blockchain)
    (address : string) :
  (∀ block, block ∈ chain self → 0 < BlockClass.height block →
     is_Some (decodeBody (body block))) →
  getStarsByWalletAddress self address
  = Resolved (stars_of_owner self address).
Proof.
  intros Hdecode. unfold getStarsByWalletAddress, stars_of_owner.
  by rewrite getStars_loop_owned.
Qed.

(** A star is in the result exactly when a block above Genesis decodes to
    it with the address as owner. *)
Lemma stars_of_owner_elem (self : Blockchain) (address : string) (star : Star) :
  star ∈ stars_of_owner self address ↔
  ∃ block, block ∈ chain self ∧ 0 < BlockClass.height block
    ∧ decodeBody (body block) = Some (ClaimData address star).
Proof.
  unfold stars_of_owner. rewrite list_elem_of_omap.
  split; intros (block & Hin & Hstar); exists block; (split; [done|]).
  - unfold star_owned_by in Hstar.
    case_bool_decide; [|done].
    destruct (decodeBody (body block)) as [[?|owner star']|]; try done.
    case_bool_decide; by simplify_eq.
  - destruct Hstar as [Hheight Hdec]. unfold star_owned_by.
    rewrite bool_decide_eq_true_2, Hdec by done.
    by rewrite bool_decide_eq_true_2.
Qed.

(** When a body above Genesis does not decode, the promise is never
    settled. *)
Lemma getStars_loop_stuck (address : string) (blocks : list Block) :
  foldl (λ stars block, stars ≫= λ stars, getStars_turn address stars block)
        None blocks = None.
Proof. by induction blocks. Qed.

Lemma getStarsByWalletAddress_pending (self : Blockchain) (address : string)
    (block : Block) :
  block ∈ chain self → 0 < BlockClass.height block →
  decodeBody (body block) = None →
  getStarsByWalletAddress self address = Pending.
Proof.
  intros Hin Hheight Hdecode. unfold getStarsByWalletAddress.
  assert (Hloop : ∀ stars,
    foldl (λ stars block, stars ≫= λ stars, getStars_turn address stars block)
          (Some stars) (chain self) = None); [|by rewrite Hloop].
  induction (chain self) as [|x blocks IH]; intros stars;
    [by apply elem_of_nil in Hin|].
  apply elem_of_cons in Hin as [<-|Hin]; simpl.
  - unfold getStars_turn at 2, getBData.
    rewrite bool_decide_eq_true_2, Hdecode by done.
    apply getStars_loop_stuck.
  - destruct (getStars_turn address stars x);
      [by apply IH|apply getStars_loop_stuck].
Qed.

End Claim.

(** With a decoding that reads back what the encoding wrote, the bodies
    above Genesis of a chain built by [new Blockchain()] and [submitStar]
    all decode. *)
Section Decodable.
Context {libs : Libraries} {codec : BodyCodec}.
Hypothesis decodeBody_encodeBody :
  ∀ data, decodeBody (encodeBody data) = Some data.

Lemma new_Blockchain_bodies_decode (now : Z) (block : Block) :
  block ∈ chain (new_Blockchain now) → 0 < BlockClass.height block →
  is_Some (decodeBody (body block)).
Proof.
  rewrite new_Blockchain_genesis. unfold committed; simpl.
  intros ->%list_elem_of_singleton. rewrite sealed_height. simpl. lia.
Qed.

Lemma submitStar_bodies_decode (self : Blockchain)
    (address message signature : string) (star : Star) (now now' : Z) :
  (∀ block, block ∈ chain self → 0 < BlockClass.height block →
     is_Some (decodeBody (body block))) →
  ∀ block,
    block ∈ chain (submitStar self address message signature star now now').1 →
    0 < BlockClass.height block → is_Some (decodeBody (body block)).
Proof.
  intros Hdecode block. rewrite submitStar_state.
  destruct (_addBlock_state self (new_Block (ClaimData address star)) now')
    as [->| ->]; [apply Hdecode|].
  unfold committed; simpl.
  intros [Hold| ->%list_elem_of_singleton]%elem_of_app; [by apply Hdecode|].
  intros _. rewrite sealed_body. simpl. by rewrite decodeBody_encodeBody.
Qed.

End Decodable.

(** ** The lookups *)

Section FilterFirst.
Context {A : Type} (P : A → Prop) `{!∀ x, Decision (P x)}.

(** The first element of a filtered list is the first element of the list
    that passes the test. *)
Lemma filter_first_Some (l : list A) (x : A) :
  filter P l !! 0%nat = Some x ↔
  ∃ idx, l !! idx = Some x ∧ P x
    ∧ ∀ j y, (j < idx)%nat → l !! j = Some y → ¬ P y.
Proof.
  induction l as [|y l IH].
  - split; [done|]. by intros (idx & Hlookup & _).
  - destruct (decide (P y)) as [Hy|Hy].
    + rewrite filter_cons_True by done. simpl. split.
      * intros [= ->]. exists 0%nat. split; [done|]. split; [done|]. lia.
      * intros ([|idx] & Hlookup & Hx & Hfirst); [by simplify_eq/=|].
        by destruct (Hfirst 0%nat y ltac:(lia) eq_refl).
    + rewrite filter_cons_False by done. rewrite IH. split.
      * intros (idx & Hlookup & Hx & Hfirst). exists (S idx).
        split; [done|]. split; [done|].
        intros [|j] z Hj Hz; simplify_eq/=; [done|].
        apply (Hfirst j); [lia|done].
      * intros ([|idx] & Hlookup & Hx & Hfirst); [by simplify_eq/=|].
        exists idx. split; [done|]. split; [done|].
        intros j z Hj Hz. apply (Hfirst (S j)); [lia|done].
Qed.

Lemma filter_first_None (l : list A) :
  filter P l !! 0%nat = None ↔ ∀ x, x ∈ l → ¬ P x.
Proof.
  split.
  - intros Hnone x Hin Hx.
    assert (Hfx : x ∈ filter P l) by (by apply list_elem_of_filter).
    destruct (filter P l); [by apply elem_of_nil in Hfx|done].
  - intros Hall. destruct (filter P l) as [|y rest] eqn:Hfilter; [done|].
    assert (Hy : y ∈ filter P l) by (rewrite Hfilter; left).
    apply list_elem_of_filter in Hy as [Hy Hin]. by destruct (Hall y Hin).
Qed.

End FilterFirst.

Section LookupFacts.
Context {libs : Libraries} {codec : BodyCodec}.

(** X1.  [getBlockByHash] rejects with [Hash not found] when no block of
    the chain stores the hash, and otherwise resolves with the first block
    of the chain that stores it. *)
Theorem getBlockByHash_first_match (self : Blockchain) (h : string) :
  (getBlockByHash self h = Rejected (mkError "Hash not found")
   ∧ ∀ block, block ∈ chain self → hash block ≠ Some h)
  ∨ (∃ idx block,
       getBlockByHash self h = Resolved (Some block)
       ∧ chain self !! idx = Some block
       ∧ hash block = Some h
       ∧ ∀ j other, (j < idx)%nat → chain self !! j = Some other →
           hash other ≠ Some h).
Proof.
  unfold getBlockByHash.
  destruct (filter (λ block, hash block = Some h) (chain self) !! 0%nat)
    as [block|] eqn:Hfirst.
  - right. pose proof Hfirst as Hidx.
    apply filter_first_Some in Hidx as (idx & Hlookup & Hhash & Hbefore).
    exists idx, block.
    destruct (filter _ (chain self)) as [|b rest]; [done|].
    simpl in Hfirst. by simplify_eq/=.
  - left. pose proof Hfirst as Hall.
    rewrite filter_first_None in Hall.
    destruct (filter _ (chain self)) as [|b rest]; [|done].
    split; [done|]. intros block Hin. by apply Hall.
Qed.

(** On a chain whose blocks sit at their heights, the first block of a
    given height is the block at that index. *)
Lemma filter_height_first (self : Blockchain) (h : JS.number) :
  heights_are_positions self →
  filter (λ p, JS.Int (BlockClass.height p) = h) (chain self) !! 0%nat
  = match h with
    | JS.Int z => if bool_decide (0 ≤ z) then chain self !! Z.to_nat z else None
    | JS.NaN => None
    end.
Proof.
  intros Hpos. destruct h as [z|]; [|by apply filter_first_None].
  case_bool_decide as Hz.
  - destruct (chain self !! Z.to_nat z) as [block|] eqn:Hblock.
    + apply filter_first_Some. exists (Z.to_nat z).
      split; [done|]. split.
      * rewrite (Hpos _ _ Hblock). f_equal. lia.
      * intros j other Hj Hother [= Heq].
        rewrite (Hpos _ _ Hother) in Heq. lia.
    + apply filter_first_None.
      intros other [j Hother]%list_elem_of_lookup [= Heq].
      rewrite (Hpos _ _ Hother) in Heq.
      apply lookup_ge_None in Hblock. apply lookup_lt_Some in Hother. lia.
  - apply filter_first_None.
    intros other [j Hother]%list_elem_of_lookup [= Heq].
    rewrite (Hpos _ _ Hother) in Heq. lia.
Qed.

End LookupFacts.

(** ** Objects used through their public methods, one call at a time *)

Section Built.
Context {libs : Libraries} {codec : BodyCodec}.

Lemma built_reachable (self : Blockchain) : built self → reachable self.
Proof.
  induction 1 as [now|self now _ [now0 IH]|self a m s st now now' _ [now0 IH]].
  - exists now. apply rtc_refl.
  - exists now0. eapply rtc_r; [exact IH|apply step_initializeChain].
  - exists now0. eapply rtc_r; [exact IH|apply step_submitStar].
Qed.

Lemma built_valid (self : Blockchain) : built self → validateChain self = [].
Proof.
  induction 1.
  - apply new_Blockchain_valid.
  - rewrite initializeChain_state. case_bool_decide; [|done].
    by apply _addBlock_valid.
  - by apply submitStar_valid.
Qed.

Lemma reachable_height (self : Blockchain) : reachable self → 0 ≤ height self.
Proof.
  intros [[Hheight _] Hne _ _]%reachable_hash_linked.
  destruct (chain self); [done|]. simpl in Hheight. lia.
Qed.

Lemma reachable_tail (self : Blockchain) :
  reachable self → ∃ tail, last (chain self) = Some tail.
Proof.
  intros [_ Hne _ _]%reachable_hash_linked.
  destruct (last (chain self)) eqn:Hlast; [by eexists|].
  by apply last_None in Hlast.
Qed.

Ltac sealed_fields self :=
  unfold sealed, _addBlock;
  destruct (bool_decide (0 < length (validateChain self))%nat); simpl;
  (destruct (bool_decide (0 < length (chain self))%nat);
   [destruct (chain self !! (length (chain self) - 1)%nat)|]); simpl.

Lemma sealed_time (self : Blockchain) (block : Block) (now : Z) :
  time (sealed self block now) = Some (JS.seconds_string now).
Proof. sealed_fields self; done. Qed.

Lemma sealed_hash (self : Blockchain) (block : Block) (now : Z) :
  is_Some (hash (sealed self block now)).
Proof. sealed_fields self; by eexists. Qed.

(** [submitStar] on an object used through its public methods: the block
    is committed, and the promise is the first settlement on the way. *)
Lemma submitStar_built (self : Blockchain)
    (address message signature : string) (star : Star) (now now' : Z) :
  built self →
  submitStar self address message signature star now now'
  = (committed self (sealed self (new_Block (ClaimData address star)) now'),
     if JS.gt (JS.sub (JS.parseInt (Some (JS.seconds_string now)))
                      (JS.parseInt (JS.split ":" message !! 1%nat)))
              (JS.Int elapsed_limit)
     then Rejected ExpiredChallengeError
     else match bitcoinMessage_verify message address signature with
          | Returns true =>
              Resolved (sealed self (new_Block (ClaimData address star)) now')
          | Returns false => Rejected InvalidSignatureError
          | Throws error => Rejected error
          end).
Proof.
  intros Hbuilt. by rewrite submitStar_valid_chain by by apply built_valid.
Qed.

(** X5.  On an object used through its public methods, when the message
    has no second field between colons, or has one that [parseInt] reads
    as a number that is not negative, at a clock reading a [Date] can
    give, the promise of [submitStar] is decided by the signature check
    alone: resolved with the committed block when it returns true,
    rejected with [ERROR - Message with wallet address invalid] when it
    returns false, rejected with the thrown error when it throws. *)
Theorem submitStar_settlement (self : Blockchain)
    (address message signature : string) (star : Star) (now now' : Z) :
  built self →
  JS.split ":" message !! 1%nat = None
  ∨ (∃ msgTime, JS.parseInt (JS.split ":" message !! 1%nat) = JS.Int msgTime
       ∧ 0 ≤ msgTime ∧ 1000 ≤ now ≤ JS.max_time) →
  ∃ newBlock,
    last (chain (submitStar self address message signature star now now').1)
    = Some newBlock
    ∧ (submitStar self address message signature star now now').2
      = match bitcoinMessage_verify message address signature with
        | Returns true => Resolved newBlock
        | Returns false => Rejected InvalidSignatureError
        | Throws error => Rejected error
        end.
Proof.
  intros Hbuilt Htime. rewrite submitStar_built by done. cbn [fst snd].
  unfold committed at 1. cbn [chain].
  eexists. split; [apply last_snoc|].
  destruct Htime as [->|(msgTime & -> & Hpos & Hnow)].
  - by destruct (JS.parseInt (Some (JS.seconds_string now))).
  - by rewrite elapsed_below_limit.
Qed.

(** X6.  A message without a second colon-separated field is not rejected:
    on an object used through its public methods, with a signature that
    the check accepts, [submitStar] resolves with the block and commits
    it. *)
Theorem submitStar_accepts_message_without_timestamp (self : Blockchain)
    (address message signature : string) (star : Star) (now now' : Z) :
  built self →
  JS.split ":" message !! 1%nat = None →
  bitcoinMessage_verify message address signature = Returns true →
  ∃ newBlock,
    submitStar self address message signature star now now'
    = (mkBlockchain (chain self ++ [newBlock]) (height self + 1),
       Resolved newBlock).
Proof.
  intros Hbuilt Hfield Hverify.
  rewrite submitStar_built, Hfield, Hverify by done.
  unfold committed. rewrite sealed_height.
  eexists. by destruct (JS.parseInt (Some (JS.seconds_string now))).
Qed.


(** X8.  [new Blockchain()] is the Genesis block alone: height 0, no
    previous hash, the encoded Genesis marker as body; the counter is 0,
    the chain validates, and no address has a star. *)
Theorem new_Blockchain_genesis_only (now : Z) :
  ∃ genesis,
    new_Blockchain now = mkBlockchain [genesis] 0
    ∧ BlockClass.height genesis = 0
    ∧ previousBlockHash genesis = None
    ∧ body genesis = encodeBody (GenesisData "Genesis Block")
    ∧ time genesis = Some (JS.seconds_string now)
    ∧ validate genesis = true
    ∧ validateChain (new_Blockchain now) = []
    ∧ ∀ address,
        getStarsByWalletAddress (new_Blockchain now) address = Resolved [].
Proof.
  exists (sealed constructor_fields (new_Block (GenesisData "Genesis Block")) now).
  split; [|split; [|split; [|split; [|split; [|split; [|split]]]]]].
  - rewrite new_Blockchain_genesis. unfold committed.
    by rewrite sealed_height.
  - apply sealed_height.
  - by rewrite sealed_previousBlockHash_first.
  - apply sealed_body.
  - apply sealed_time.
  - by apply sealed_validate.
  - apply new_Blockchain_valid.
  - intros address. rewrite new_Blockchain_genesis.
    pose proof (sealed_height constructor_fields
                  (new_Block (GenesisData "Genesis Block")) now) as Hheight.
    remember (sealed constructor_fields _ now) as genesis.
    unfold getStarsByWalletAddress, committed. simpl.
    unfold getStars_turn. rewrite Hheight.
    by rewrite bool_decide_eq_false_2 by (simpl; lia).
Qed.

End Built.

Section AfterSubmit.
Context {libs : Libraries} {codec : BodyCodec}.





(** X13.  When [getBData] does not resolve for one block above Genesis,
    the promise of [getStarsByWalletAddress] is never settled, for every
    address. *)
Theorem getStarsByWalletAddress_never_settles (self : Blockchain)
    (address : string) (block : Block) :
  block ∈ chain self → 0 < BlockClass.height block →
  (∀ data, getBData block ≠ Resolved data) →
  getStarsByWalletAddress self address = Pending.
Proof.
  intros Hin Hheight Hfails.
  apply (getStarsByWalletAddress_pending self address block); [done..|].
  unfold getBData in Hfails.
  destruct (decodeBody (body block)) as [data|]; [|done].
  by destruct (Hfails data).
Qed.



(** X15.  On a chain that does not validate, whose counter is the length
    of the array minus one and whose blocks sit at the indices that are
    their heights (a chain written to from outside), a call of
    [submitStar] whose signature check returns true, with a message
    without a second field or with one that is not negative, still
    resolves with a block, and that block is not in the chain: the object
    is unchanged. *)
Theorem submitStar_resolves_without_commit (self : Blockchain)
    (address message signature : string) (star : Star) (now now' : Z) :
  validateChain self ≠ [] →
  counted self →
  JS.split ":" message !! 1%nat = None
  ∨ (∃ msgTime, JS.parseInt (JS.split ":" message !! 1%nat) = JS.Int msgTime
       ∧ 0 ≤ msgTime ∧ 1000 ≤ now ≤ JS.max_time) →
  bitcoinMessage_verify message address signature = Returns true →
  ∃ newBlock,
    submitStar self address message signature star now now'
    = (self, Resolved newBlock)
    ∧ body newBlock = encodeBody (ClaimData address star)
    ∧ newBlock ∉ chain self.
Proof.
  intros Hcorrupt [Hheight Hpos] Htime Hverify.
  exists (sealed self (new_Block (ClaimData address star)) now').
  split; [|split; [apply sealed_body|]].
  - unfold submitStar. rewrite Hverify.
    destruct (_addBlock_cases self (new_Block (ClaimData address star)) now')
      as [[_ ->]|[? _]]; [|done].
    destruct Htime as [->|(msgTime & -> & ? & ?)].
    + by destruct (JS.parseInt (Some (JS.seconds_string now))).
    + by rewrite elapsed_below_limit.
  - intros [idx Hidx]%list_elem_of_lookup.
    pose proof (Hpos idx _ Hidx) as Hat. rewrite sealed_height in Hat.
    apply lookup_lt_Some in Hidx. lia.
Qed.

End AfterSubmit.

(** ** The challenge read back *)

Lemma split_nonempty (sep : ascii) (s : string) : JS.split sep s ≠ [].
Proof.
  destruct s as [|c s]; [done|]. cbn [JS.split].
  case_bool_decide; [done|]. by destruct (JS.split sep s).
Qed.

(** A text without separator, followed by a separator and more text, splits
    into the text and the fields of the rest. *)
Lemma split_single_sep (sep : ascii) (a rest : string) :
  JS.split sep a = [a] →
  JS.split sep (a +:+ String sep rest) = a :: JS.split sep rest.
Proof.
  induction a as [|c a IH]; intros Hsingle.
  - change ("" +:+ String sep rest) with (String sep rest).
    cbn [JS.split]. by rewrite bool_decide_eq_true_2.
  - rewrite string_app_cons. cbn [JS.split] in *.
    case_bool_decide; [done|].
    destruct (JS.split sep a) as [|field fields] eqn:Hsplit;
      [by destruct (split_nonempty sep a)|].
    simplify_eq. by rewrite IH.
Qed.

Lemma split_single_app (sep : ascii) (a b : string) :
  JS.split sep a = [a] → JS.split sep b = [b] →
  JS.split sep (a +:+ b) = [a +:+ b].
Proof.
  induction a as [|c a IH]; intros Ha Hb; [done|].
  rewrite string_app_cons. cbn [JS.split] in *.
  case_bool_decide; [done|].
  destruct (JS.split sep a) as [|field fields] eqn:Hsplit;
    [by destruct (split_nonempty sep a)|].
  simplify_eq. by rewrite IH.
Qed.

Lemma split_pretty_N_char (d : N) :
  JS.split ":" (String (pretty_N_char d) "") = [String (pretty_N_char d) ""].
Proof. unfold pretty_N_char. by repeat case_match. Qed.

(** The decimal digits of a number have no colon. *)
Lemma split_pretty_N_go (x : N) :
  JS.split ":" (pretty_N_go x "") = [pretty_N_go x ""].
Proof.
  induction (N.lt_wf_0 x) as [x _ IH].
  destruct (decide (x = 0%N)) as [->|Hx]; [done|].
  rewrite pretty_N_go_step, pretty_N_go_app by lia.
  apply split_single_app; [|apply split_pretty_N_char].
  apply IH. apply N.div_lt; lia.
Qed.

Lemma split_toString (n : Z) :
  0 ≤ n → JS.split ":" (JS.toString n) = [JS.toString n].
Proof.
  intros Hn. destruct n as [|p|p]; [done| |lia].
  unfold JS.toString. rewrite pretty_Zpos. apply split_pretty_N_go.
Qed.

(** X16.  For an address without colon and a clock reading of at least
    one second, the message of [requestMessageOwnershipVerification]
    splits into the address, the issuance time in seconds and
    [starRegistry]; [submitStar] reads the issuance time back from it, and
    the elapsed time it computes at a later clock reading is the
    difference of the two readings in whole seconds. *)
Theorem challenge_round_trip (address : string) (issued now : Z) :
  1000 ≤ issued → 1000 ≤ now →
  JS.split ":" address = [address] →
  ∃ message,
    requestMessageOwnershipVerification address issued = Resolved message
    ∧ JS.split ":" message
      = [address; JS.toString (issued `div` 1000); "starRegistry"]
    ∧ JS.parseInt (JS.split ":" message !! 1%nat)
      = JS.Int (issued `div` 1000)
    ∧ JS.sub (JS.parseInt (Some (JS.seconds_string now)))
             (JS.parseInt (JS.split ":" message !! 1%nat))
      = JS.Int (now `div` 1000 - issued `div` 1000).
Proof.
  intros Hissued Hnow Haddress.
  assert (Hseconds : 0 ≤ issued `div` 1000) by (apply Z.div_pos; lia).
  eexists. split; [reflexivity|].
  assert (Hsplit :
    JS.split ":" (address +:+ ":" +:+ JS.seconds_string issued
                  +:+ ":starRegistry")
    = [address; JS.toString (issued `div` 1000); "starRegistry"]).
  { rewrite seconds_string_div by done.
    change (address +:+ ":" +:+ ?rest) with (address +:+ String ":" rest).
    rewrite split_single_sep by done. f_equal.
    change (?ts +:+ ":starRegistry") with (ts +:+ String ":" "starRegistry").
    by rewrite split_single_sep by by apply split_toString. }
  split; [exact Hsplit|]. rewrite Hsplit. cbn [lookup list_lookup].
  rewrite parseInt_toString by done. split; [done|].
  by rewrite curTime_seconds.
Qed.

(** ** The chain only grows *)

Section AppendOnly.
Context {libs : Libraries} {codec : BodyCodec}.

Lemma step_appends (self self' : Blockchain) :
  step self self' →
  ∃ added, chain self' = chain self ++ added
    ∧ height self' = height self + Z.of_nat (length added).
Proof.
  intros Hstep.
  assert (Hadd : ∀ block now,
    ∃ added, chain (_addBlock self block now).1.1 = chain self ++ added
      ∧ height (_addBlock self block now).1.1
        = height self + Z.of_nat (length added)).
  { intros block now.
    destruct (_addBlock_state self block now) as [->| ->].
    - exists []. rewrite app_nil_r. split; [done|]. simpl. lia.
    - eexists [_]. unfold committed. cbn [chain height].
      split; [done|]. rewrite sealed_height. simpl. lia. }
  destruct Hstep.
  - apply Hadd.
  - rewrite initializeChain_state. case_bool_decide; [apply Hadd|].
    exists []. rewrite app_nil_r. split; [done|]. simpl. lia.
  - rewrite submitStar_state. apply Hadd.
Qed.

Lemma steps_append (self self' : Blockchain) :
  rtc step self self' →
  ∃ added, chain self' = chain self ++ added
    ∧ height self' = height self + Z.of_nat (length added).
Proof.
  intros Hsteps. revert self' Hsteps.
  apply (rtc_ind_r (λ self',
    ∃ added, chain self' = chain self ++ added
      ∧ height self' = height self + Z.of_nat (length added))).
  - exists []. rewrite app_nil_r. split; [done|]. simpl. lia.
  - intros mid self' _ Hstep (added & Hchain & Hheight).
    destruct (step_appends mid self' Hstep) as (more & Hchain' & Hheight').
    exists (added ++ more). rewrite Hchain', Hchain, Hheight', Hheight.
    rewrite app_assoc, length_app. split; [done|]. lia.
Qed.

(** X18.  What [getBlockByHeight] resolves with for a height up to the
    counter stays the same through every later sequence of calls. *)
Theorem getBlockByHeight_is_stable (self self' : Blockchain) (z : Z) :
  reachable self → rtc step self self' → 0 ≤ z ≤ height self →
  getBlockByHeight self' (JS.Int z) = getBlockByHeight self (JS.Int z).
Proof.
  intros Hreach Hsteps Hz.
  assert (Hreach' : reachable self').
  { destruct Hreach as [now Hnow]. exists now. by etrans. }
  destruct (reachable_hash_linked self Hreach) as [[Hheight Hpos] _ _ _].
  destruct (reachable_hash_linked self' Hreach') as [[_ Hpos'] _ _ _].
  destruct (steps_append self self' Hsteps) as (added & Hchain & _).
  unfold getBlockByHeight. rewrite !filter_height_first by done.
  rewrite Hchain, lookup_app_l; [done|lia].
Qed.

End AppendOnly.

(** ** Calls that overlap *)

Section Overlap.
Context {libs : Libraries} {codec : BodyCodec}.

(** [_addBlock] taken alone is its beginning followed by its end. *)
Lemma _addBlock_begin_finish (self : Blockchain) (block : Block) (now : Z) :
  _addBlock self block now
  = ((finish_addBlock self (begin_addBlock self block now)).1,
     candidate (begin_addBlock self block now),
     (finish_addBlock self (begin_addBlock self block now)).2).
Proof.
  unfold finish_addBlock, begin_addBlock. cbn [verdict candidate].
  destruct (_addBlock_cases self block now) as [[Hne ->]|[Hnil ->]].
  - rewrite bool_decide_eq_true_2; [done|].
    destruct (validateChain self); [done|simpl; lia].
  - by rewrite Hnil.
Qed.

Lemma linked_below_app (blocks more : list Block) (bound : nat)
    (block : Block) :
  linked_below blocks bound block → linked_below (blocks ++ more) bound block.
Proof.
  intros (Hheight & Hhash & Hzero & Hlink). repeat split; try done.
  intros Hpos.
  destruct (Hlink Hpos) as (j & prevBlock & h & Hj & Hlookup & Hrest).
  exists j, prevBlock, h. split; [done|].
  split; [by apply lookup_app_l_Some|done].
Qed.

Lemma linked_below_le (blocks : list Block) (bound bound' : nat)
    (block : Block) :
  (bound ≤ bound')%nat →
  linked_below blocks bound block → linked_below blocks bound' block.
Proof.
  intros Hle (Hheight & Hhash & Hzero & Hlink). repeat split; try done.
  intros Hpos.
  destruct (Hlink Hpos) as (j & prevBlock & h & Hj & Hrest).
  exists j, prevBlock, h. split; [lia|done].
Qed.

(** The block that lines 68-79 seal on an object whose counter follows
    its last block. *)
Lemma begin_addBlock_sound (self : Blockchain) (data : Payload) (now : Z) :
  tail_counted self →
  (∀ idx block, chain self !! idx = Some block →
     validate block = true ∧ linked_below (chain self) idx block) →
  validate (candidate (begin_addBlock self (new_Block data) now)) = true
  ∧ linked_below (chain self) (length (chain self))
                 (candidate (begin_addBlock self (new_Block data) now)).
Proof.
  intros Hcounter Hchain. cbn [begin_addBlock candidate].
  split; [by apply sealed_validate|].
  unfold tail_counted in Hcounter. unfold linked_below.
  rewrite sealed_height.
  destruct (last (chain self)) as [tail|] eqn:Htail.
  - pose proof Htail as Hlookup. rewrite last_lookup in Hlookup.
    destruct (Hchain _ _ Hlookup) as [_ (Hheight & [h Hhash] & _ & _)].
    split; [lia|]. split; [apply sealed_hash|]. split; [lia|]. intros _.
    exists (pred (length (chain self))), tail, h.
    split; [apply lookup_lt_Some in Hlookup; lia|]. split; [done|].
    split; [lia|]. split; [done|].
    rewrite <- Hhash. by apply sealed_previousBlockHash_tail.
  - apply last_None in Htail.
    split; [lia|]. split; [apply sealed_hash|]. split; [|lia].
    intros _. by rewrite sealed_previousBlockHash_first.
Qed.

Lemma begin_world_sound (w : World) (data : Payload) (now : Z) :
  world_sound w →
  world_sound
    (mkWorld (object w)
       (in_flight w ++ [begin_addBlock (object w) (new_Block data) now])).
Proof.
  intros [Hcounter Hchain Hflight]. split; cbn [object in_flight]; [done..|].
  intros a [Hold| ->%list_elem_of_singleton]%elem_of_app;
    [by apply Hflight|].
  by apply begin_addBlock_sound.
Qed.

Lemma finish_world_sound (w : World) (before after : list Append)
    (a : Append) :
  in_flight w = before ++ a :: after →
  world_sound w →
  world_sound (mkWorld (finish_addBlock (object w) a).1 (before ++ after)).
Proof.
  intros Hin [Hcounter Hchain Hflight].
  assert (Ha : a ∈ in_flight w).
  { rewrite Hin. apply elem_of_app. right. left. }
  assert (Hrest : ∀ b, b ∈ before ++ after → b ∈ in_flight w).
  { intros b [Hb|Hb]%elem_of_app; rewrite Hin; apply elem_of_app;
      [by left|right; by right]. }
  unfold finish_addBlock. case_bool_decide; cbn [fst].
  - split; cbn [object in_flight]; [done..|].
    intros b Hb. by apply Hflight, Hrest.
  - destruct (Hflight a Ha) as [Hvalid Hlinked].
    split; cbn [object in_flight chain height].
    + unfold tail_counted. cbn [chain height]. by rewrite last_snoc.
    + intros idx block [Hold|[Hlen Hnew]]%lookup_app_Some.
      * destruct (Hchain idx block Hold) as [Hv Hl].
        split; [done|]. by apply linked_below_app.
      * destruct (idx - length (chain (object w)))%nat eqn:Hidx;
          simplify_eq/=.
        assert (idx = length (chain (object w))) as -> by lia.
        split; [done|]. by apply linked_below_app.
    + intros b Hb. destruct (Hflight b (Hrest b Hb)) as [Hv Hl].
      split; [done|]. rewrite length_app. apply linked_below_app.
      eapply linked_below_le; [|done]. lia.
Qed.

Lemma constructor_sound (now : Z) : world_sound (constructor now).
Proof.
  unfold constructor, initializeChain_begin.
  rewrite bool_decide_eq_true_2 by done.
  apply (begin_world_sound (settled constructor_fields)).
  split; cbn; [done|by intros idx block ?|by intros a ?%elem_of_nil].
Qed.

Lemma wstep_sound (w w' : World) :
  wstep w w' → world_sound w → world_sound w'.
Proof.
  intros Hstep Hsound. destruct Hstep.
  - unfold initializeChain_begin. case_bool_decide; [|done].
    by apply begin_world_sound.
  - cbn [submitStar_begin fst]. by apply begin_world_sound.
  - by apply finish_world_sound.
Qed.

Lemma wsteps_sound (w w' : World) :
  rtc wstep w w' → world_sound w → world_sound w'.
Proof.
  intros Hsteps Hsound. revert w' Hsteps.
  apply (rtc_ind_r (λ w', world_sound w')); [done|].
  intros mid w' _ Hstep IH. by apply (wstep_sound mid).
Qed.

Lemma observable_sound (self : Blockchain) :
  observable self →
  tail_counted self
  ∧ ∀ idx block, chain self !! idx = Some block →
      validate block = true ∧ linked_below (chain self) idx block.
Proof.
  intros (now & w & Hsteps & <-).
  by destruct (wsteps_sound _ _ Hsteps (constructor_sound now)).
Qed.

(** A call that begins with nothing in flight and whose append ends
    before anything else begins is the call taken alone. *)
Lemma submitStar_alone (self : Blockchain)
    (address message signature : string) (star : Star) (now now' : Z) :
  rtc wstep (settled self)
    (settled (submitStar self address message signature star now now').1).
Proof.
  eapply rtc_l;
    [apply (wstep_submitStar _ address message signature star now now')|].
  eapply rtc_l; [eapply (wstep_finish _ [] _ []); reflexivity|].
  cbn [submitStar_begin fst object settled app].
  rewrite submitStar_state, _addBlock_begin_finish. apply rtc_refl.
Qed.

Lemma new_Blockchain_alone (now : Z) :
  rtc wstep (constructor now) (settled (new_Blockchain now)).
Proof.
  eapply rtc_l; [eapply (wstep_finish _ [] _ []); reflexivity|].
  apply rtc_refl.
Qed.

(** The states of the calls taken alone are among the states a caller can
    find. *)
Lemma built_settled (self : Blockchain) :
  built self → ∃ now, rtc wstep (constructor now) (settled self).
Proof.
  induction 1 as [now|self now Hbuilt [now0 IH]
                  |self address message signature star now now' _ [now0 IH]].
  - exists now. apply new_Blockchain_alone.
  - exists now0. rewrite initializeChain_state.
    pose proof (reachable_height self (built_reachable self Hbuilt)).
    by rewrite bool_decide_eq_false_2 by lia.
  - exists now0. etrans; [exact IH|]. apply submitStar_alone.
Qed.

Lemma built_observable (self : Blockchain) : built self → observable self.
Proof.
  intros [now Hsteps]%built_settled. by exists now, (settled self).
Qed.

Lemma two_awaited_submitStar_steps (self : Blockchain)
    (address1 message1 signature1 : string) (star1 : Star) (now1 now1' : Z)
    (address2 message2 signature2 : string) (star2 : Star) (now2 now2' : Z) :
  rtc wstep (settled self)
    (two_awaited_submitStar self
       address1 message1 signature1 star1 now1 now1'
       address2 message2 signature2 star2 now2 now2').
Proof.
  eapply rtc_l;
    [apply (wstep_submitStar _ address1 message1 signature1 star1
              now1 now1')|].
  eapply rtc_l;
    [apply (wstep_submitStar _ address2 message2 signature2 star2
              now2 now2')|].
  eapply rtc_l; [eapply (wstep_finish _ [] _ [_]); reflexivity|].
  eapply rtc_l; [eapply (wstep_finish _ [] _ []); reflexivity|].
  apply rtc_refl.
Qed.

(** On a chain that validates, the two appends push. *)
Lemma two_awaited_submitStar_valid (self : Blockchain)
    (address1 message1 signature1 : string) (star1 : Star) (now1 now1' : Z)
    (address2 message2 signature2 : string) (star2 : Star) (now2 now2' : Z) :
  validateChain self = [] →
  two_awaited_submitStar self
    address1 message1 signature1 star1 now1 now1'
    address2 message2 signature2 star2 now2 now2'
  = settled
      (committed
         (committed self
            (sealed self (new_Block (ClaimData address1 star1)) now1'))
         (sealed self (new_Block (ClaimData address2 star2)) now2')).
Proof.
  intros Hvalid.
  unfold two_awaited_submitStar, submitStar_begin, finish_next,
    finish_addBlock, begin_addBlock, settled, committed.
  cbn [fst object in_flight app verdict candidate chain height].
  rewrite Hvalid. cbn [length]. rewrite bool_decide_eq_false_2 by lia.
  by cbn [fst object in_flight app verdict candidate chain height].
Qed.

(** C3.  In every state a caller can find an object made by [new
    Blockchain()] in, whatever calls began on it and whenever their
    appends ended, every block has a hash and a height that is not
    negative; a block of height 0 has no previous hash; a block of height
    above 0 has as previous hash the hash of a block of its height minus
    one that sits before it in the array, and that block is the one just
    before it when every block sits at the index that is its height.  When
    [validateChain] finds no error, every block but the first has as
    previous hash the hash of the block just before it. *)
Theorem observable_chain_is_linked (self : Blockchain) (idx : nat)
    (block : Block) :
  observable self →
  chain self !! idx = Some block →
  (∃ h, hash block = Some h)
  ∧ 0 ≤ BlockClass.height block
  ∧ (BlockClass.height block = 0 → previousBlockHash block = None)
  ∧ (0 < BlockClass.height block →
     ∃ j prevBlock h,
       (j < idx)%nat
       ∧ chain self !! j = Some prevBlock
       ∧ BlockClass.height prevBlock = BlockClass.height block - 1
       ∧ hash prevBlock = Some h
       ∧ previousBlockHash block = Some h
       ∧ (heights_are_positions self → j = (idx - 1)%nat))
  ∧ (validateChain self = [] → idx ≠ 0%nat →
     ∃ prevBlock h,
       chain self !! (idx - 1)%nat = Some prevBlock
       ∧ hash prevBlock = Some h
       ∧ previousBlockHash block = Some h).
Proof.
  intros [_ Hchain]%observable_sound Hblock.
  destruct (Hchain idx block Hblock)
    as [_ (Hheight & Hhash & Hzero & Hlink)].
  split; [done|]. split; [done|]. split; [done|]. split.
  - intros Hpos.
    destruct (Hlink Hpos)
      as (j & prevBlock & h & Hj & Hprev & Hbelow & Hrest).
    exists j, prevBlock, h. do 3 (split; [done|]).
    destruct Hrest as [Hh Hp]. do 2 (split; [done|]).
    intros Hat. pose proof (Hat _ _ Hblock). pose proof (Hat _ _ Hprev).
    lia.
  - intros Hvalid Hidx.
    pose proof (proj1 (validateChain_nil self) Hvalid idx block Hblock)
      as Hnone.
    apply detected_errors_nil in Hnone as [_ Hprev]; [|done].
    destruct (Hprev Hidx) as (prevBlock & Hlookup & Heq).
    destruct (Hchain _ _ Hlookup) as [_ (_ & [h Hh] & _)].
    exists prevBlock, h. split; [done|]. split; [done|]. by rewrite Heq.
Qed.

(** C10 fails on the code: the counter does not stay the length of the
    array minus one.  After two calls of [submitStar] one after the other,
    each awaited, on an object that has a block, whose chain validates and
    whose counter is the length of the array minus one, both blocks are
    pushed and the counter has gone up by one: the two blocks were given
    the same height at line 68, before either was pushed.
    [getChainHeight] then resolves with the height of the last block,
    which is the length of the array minus two. *)
Theorem getChainHeight_behind_the_array (self : Blockchain)
    (address1 message1 signature1 : string) (star1 : Star) (now1 now1' : Z)
    (address2 message2 signature2 : string) (star2 : Star) (now2 now2' : Z) :
  chain self ≠ [] →
  validateChain self = [] →
  height self = Z.of_nat (length (chain self)) - 1 →
  ∃ w block1 block2,
    w = two_awaited_submitStar self
          address1 message1 signature1 star1 now1 now1'
          address2 message2 signature2 star2 now2 now2'
    ∧ rtc wstep (settled self) w
    ∧ in_flight w = []
    ∧ chain (object w) = chain self ++ [block1; block2]
    ∧ body block1 = encodeBody (ClaimData address1 star1)
    ∧ body block2 = encodeBody (ClaimData address2 star2)
    ∧ BlockClass.height block1 = height self + 1
    ∧ BlockClass.height block2 = height self + 1
    ∧ getChainHeight (object w) = Resolved (BlockClass.height block2)
    ∧ getChainHeight (object w)
      = Resolved (Z.of_nat (length (chain (object w))) - 2)
    ∧ getChainHeight (object w)
      ≠ Resolved (Z.of_nat (length (chain (object w))) - 1).
Proof.
  intros _ Hvalid Hheight.
  eexists _, (sealed self (new_Block (ClaimData address1 star1)) now1'),
    (sealed self (new_Block (ClaimData address2 star2)) now2').
  split; [reflexivity|].
  split; [apply two_awaited_submitStar_steps|].
  rewrite two_awaited_submitStar_valid by done.
  unfold getChainHeight, committed, settled.
  cbn [object in_flight chain height].
  rewrite !sealed_height, !sealed_body, <- app_assoc, length_app.
  cbn [app length].
  repeat split; try done.
  - f_equal. lia.
  - intros [= Heq]. lia.
Qed.

End Overlap.

Section OverlapFacts.
Context {libs : Libraries} {codec : BodyCodec}.

(** Below the height of a block there is a block of every height. *)
Lemma heights_below (self : Blockchain) (n : nat) :
  (∀ idx block, chain self !! idx = Some block →
     validate block = true ∧ linked_below (chain self) idx block) →
  ∀ idx block z,
    chain self !! idx = Some block →
    BlockClass.height block = z + Z.of_nat n → 0 ≤ z →
    ∃ j found, chain self !! j = Some found ∧ BlockClass.height found = z.
Proof.
  intros Hchain. induction n as [|n IH]; intros idx block z Hblock Hheight Hz.
  - exists idx, block. split; [done|lia].
  - destruct (Hchain idx block Hblock) as [_ (_ & _ & _ & Hlink)].
    destruct Hlink as (j & prevBlock & h & _ & Hprev & Hbelow & _); [lia|].
    apply (IH j prevBlock z); [done|lia|done].
Qed.

(** X2.  In every state a caller can find an object made by [new
    Blockchain()] in, [getBlockByHeight] resolves, for every [z] from 0
    to the counter, with the first block of the array whose height is
    [z], and it resolves with [null] for every negative number and for
    [NaN]. *)
Theorem getBlockByHeight_observable (self : Blockchain) :
  observable self →
  (∀ z, 0 ≤ z ≤ height self →
     ∃ idx block,
       getBlockByHeight self (JS.Int z) = Resolved (Some block)
       ∧ chain self !! idx = Some block
       ∧ BlockClass.height block = z
       ∧ ∀ j other, (j < idx)%nat → chain self !! j = Some other →
           BlockClass.height other ≠ z)
  ∧ (∀ z, z < 0 → getBlockByHeight self (JS.Int z) = Resolved None)
  ∧ getBlockByHeight self JS.NaN = Resolved None.
Proof.
  intros [Hcounter Hchain]%observable_sound.
  unfold getBlockByHeight. split; [|split].
  - intros z Hz. unfold tail_counted in Hcounter.
    destruct (last (chain self)) as [tail|] eqn:Htail; [|lia].
    rewrite last_lookup in Htail.
    destruct (heights_below self (Z.to_nat (BlockClass.height tail - z))
                Hchain _ tail z Htail) as (j & found & Hfound & Hheight);
      [lia..|].
    destruct (filter _ (chain self) !! 0%nat) as [block|] eqn:Hfirst.
    + apply filter_first_Some in Hfirst as (idx & Hblock & [= Heq] & Hbefore).
      exists idx, block. do 3 (split; [done|]).
      intros i other Hi Hother Hsame. apply (Hbefore i other Hi Hother).
      by rewrite Hsame.
    + rewrite filter_first_None in Hfirst. destruct (Hfirst found).
      * apply list_elem_of_lookup. by exists j.
      * by rewrite Hheight.
  - intros z Hz.
    rewrite (proj2 (filter_first_None _ (chain self))); [done|].
    intros other [j Hother]%list_elem_of_lookup [= Heq].
    destruct (Hchain j other Hother) as [_ (Hheight & _)]. lia.
  - by rewrite (proj2 (filter_first_None _ (chain self))).
Qed.

(** The messages [validateChain] can resolve with. *)
Lemma validateChain_errors (self : Blockchain) (error : Error) :
  error ∈ validateChain self →
  (error = Block_not_valid
   ∧ ∃ block, block ∈ chain self ∧ validate block = false)
  ∨ error = Incompatible_previous_hash.
Proof.
  rewrite validateChain_turns, list_elem_of_In, in_flat_map.
  intros (idx & _ & Hturn). apply list_elem_of_In in Hturn.
  destruct (chain self !! idx) as [curBlock|] eqn:Hcur.
  - rewrite (validateChain_turn_detected _ _ _ Hcur) in Hturn.
    unfold detected_errors, self_check_errors, linkage_errors in Hturn.
    apply elem_of_app in Hturn as [Hself|Hlink].
    + destruct (validate curBlock) eqn:Hvalid;
        [by apply elem_of_nil in Hself|].
      apply list_elem_of_singleton in Hself as ->. left. split; [done|].
      exists curBlock. split; [|done].
      apply list_elem_of_lookup. by exists idx.
    + right. destruct idx as [|prevIndex]; [by apply elem_of_nil in Hlink|].
      destruct (chain self !! prevIndex); [|by apply elem_of_nil in Hlink].
      case_bool_decide; [by apply elem_of_nil in Hlink|].
      by apply list_elem_of_singleton in Hlink.
  - unfold validateChain_turn in Hturn. rewrite Hcur in Hturn.
    by apply elem_of_nil in Hturn.
Qed.

(** X3.  In every state a caller can find an object made by [new
    Blockchain()] in, every block passes its self-check, its stored hash
    is its recomputed digest, whatever was submitted; [Incompatible
    previous hash] is the one error [validateChain] can resolve with. *)
Theorem observable_blocks_pass_self_check (self : Blockchain) :
  observable self →
  (∀ block, block ∈ chain self →
     validate block = true ∧ hash block = Some (digest block))
  ∧ (∀ error, error ∈ validateChain self →
       error = Incompatible_previous_hash).
Proof.
  intros [_ Hchain]%observable_sound.
  assert (Hvalid : ∀ block, block ∈ chain self → validate block = true).
  { intros block [idx Hblock]%list_elem_of_lookup.
    by destruct (Hchain idx block Hblock). }
  split.
  - intros block Hin. pose proof (Hvalid block Hin) as Hblock.
    split; [done|]. unfold validate in Hblock.
    by apply bool_decide_eq_true_1 in Hblock.
  - intros error [[_ (block & Hin & Hbad)]|Heq]%validateChain_errors; [|done].
    rewrite (Hvalid block Hin) in Hbad. done.
Qed.

(** X4.  A call of [submitStar] on a chain that validates begins an
    append that pushes its block, whatever the message and the signature
    are and whatever the object is by the time the append ends: the block
    goes to the end of the array as it is then, and the counter becomes
    the counter the call found plus one.  The block has that height, the
    hash of the last block the call found as previous hash, the encoded
    owner and star as body, the clock reading without its last three
    digits as time, and it passes its self-check. *)
Theorem submitStar_block_is_pushed (w : World)
    (address message signature : string) (star : Star) (now now' : Z)
    (tail : Block) (later : Blockchain) :
  validateChain (object w) = [] →
  last (chain (object w)) = Some tail →
  ∃ a,
    (submitStar_begin w address message signature star now now').1
    = mkWorld (object w) (in_flight w ++ [a])
    ∧ finish_addBlock later a
      = (mkBlockchain (chain later ++ [candidate a]) (height (object w) + 1),
         Resolved (candidate a))
    ∧ BlockClass.height (candidate a) = height (object w) + 1
    ∧ previousBlockHash (candidate a) = hash tail
    ∧ body (candidate a) = encodeBody (ClaimData address star)
    ∧ time (candidate a) = Some (JS.seconds_string now')
    ∧ validate (candidate a) = true.
Proof.
  intros Hvalid Htail.
  exists (begin_addBlock (object w) (new_Block (ClaimData address star)) now').
  split; [done|]. unfold finish_addBlock, begin_addBlock.
  cbn [verdict candidate]. rewrite Hvalid. cbn [length].
  rewrite bool_decide_eq_false_2 by lia. rewrite sealed_height.
  split; [done|]. split; [done|].
  split; [by apply sealed_previousBlockHash_tail|].
  split; [apply sealed_body|]. split; [apply sealed_time|].
  by apply sealed_validate.
Qed.


Lemma wstep_appends (w w' : World) :
  wstep w w' → ∃ added, chain (object w') = chain (object w) ++ added.
Proof.
  intros Hstep. destruct Hstep.
  - exists []. rewrite app_nil_r. unfold initializeChain_begin.
    by case_bool_decide.
  - exists []. by rewrite app_nil_r.
  - cbn [object]. unfold finish_addBlock. case_bool_decide; cbn [fst chain].
    + exists []. by rewrite app_nil_r.
    + by eexists [_].
Qed.

Lemma wsteps_append (w w' : World) :
  rtc wstep w w' → ∃ added, chain (object w') = chain (object w) ++ added.
Proof.
  intros Hsteps. revert w' Hsteps.
  apply (rtc_ind_r (λ w',
    ∃ added, chain (object w') = chain (object w) ++ added)).
  - exists []. by rewrite app_nil_r.
  - intros mid w' _ Hstep (added & Hchain).
    destruct (wstep_appends mid w' Hstep) as (more & Hchain').
    exists (added ++ more). by rewrite Hchain', Hchain, app_assoc.
Qed.

(** X17.  Nothing that happens to an object used through its public
    methods removes or changes a block, whenever the calls begin and their
    appends end: the array after is the array before followed by the
    blocks pushed, and every block is still at its index. *)
Theorem chain_is_append_only (w w' : World) :
  rtc wstep w w' →
  (∃ added, chain (object w') = chain (object w) ++ added)
  ∧ (length (chain (object w)) ≤ length (chain (object w')))%nat
  ∧ ∀ idx block, chain (object w) !! idx = Some block →
      chain (object w') !! idx = Some block.
Proof.
  intros (added & Hchain)%wsteps_append.
  split; [by exists added|]. rewrite Hchain. split.
  - rewrite length_app. lia.
  - intros idx block Hblock. by apply lookup_app_l_Some.
Qed.

(** X19.  In every state a caller can find an object made by [new
    Blockchain()] in, [getChainHeight] resolves with [-1] exactly when the
    array is empty, and otherwise with the height of the last block of
    the array, which is not negative. *)
Theorem getChainHeight_observable (self : Blockchain) :
  observable self →
  (getChainHeight self = Resolved (-1) ↔ chain self = [])
  ∧ (∀ tail, last (chain self) = Some tail →
       getChainHeight self = Resolved (BlockClass.height tail)
       ∧ 0 ≤ BlockClass.height tail).
Proof.
  intros [Hcounter Hchain]%observable_sound.
  unfold getChainHeight, tail_counted in *.
  destruct (last (chain self)) as [tail|] eqn:Htail.
  - pose proof Htail as Hlookup. rewrite last_lookup in Hlookup.
    destruct (Hchain _ _ Hlookup) as [_ (Hheight & _)].
    split.
    + split; [intros [= Heq]; lia|]. intros Hnil. by rewrite Hnil in Htail.
    + intros ? [= <-]. split; [by rewrite Hcounter|done].
  - apply last_None in Htail. split; [|done].
    split; [done|]. intros _. by rewrite Hcounter.
Qed.



End OverlapFacts.

(** ** The statements at concrete inputs *)

#[local] Existing Instance Demo.libraries.
#[local] Existing Instance Demo.codec.

Example fresh_chain :
  chain Demo.fresh
  = [mkBlock
       (Some "sha256:{hash:null,height:0,body:Genesis Block,time:1577836800,previousBlockHash:null}")
       0 "Genesis Block" (Some "1577836800") None]
  ∧ height Demo.fresh = 0.
Proof. vm_compute. done. Qed.

Example two_stars_valid : validateChain Demo.two_stars = [].
Proof. vm_compute. reflexivity. Qed.

Example tail_hash_altered :
  validateChain (corrupt_hash 2 (Some "zzz") Demo.two_stars) = [Block_not_valid].
Proof. vm_compute. reflexivity. Qed.

(** [parseInt] skips white space of more than one byte; the number is
    minus [2^95], which a double holds. *)
Example parseInt_skips_no_break_space :
  JS.parseInt
    (Some (Demo.no_break_space +:+ "-39614081257132168796771975168"))
  = JS.Int (- 2 ^ 95).
Proof. vm_compute. reflexivity. Qed.

(** A timestamp below minus 3e28 behind a no-break space is read as that
    number, and the call is rejected as expired. *)
Example submitStar_expired_behind_no_break_space :
  (submitStar Demo.fresh "1xyz"
     ("1xyz:" +:+ Demo.no_break_space
      +:+ "-39614081257132168796771975168:starRegistry")
     "bad" Demo.star4 1577836802000 1577836802005).2
  = Rejected ExpiredChallengeError.
Proof. vm_compute. reflexivity. Qed.

Example fresh_reachable : reachable Demo.fresh.
Proof. exists 1577836800123. apply rtc_refl. Qed.


Lemma submitStar_rejected_yet_committed_witness :
  validateChain Demo.fresh = []
  ∧ bitcoinMessage_verify "1xyz:1577836801:starRegistry" "1xyz" "bad"
    ≠ Returns true
  ∧ ∃ error newBlock,
      submitStar Demo.fresh "1xyz" "1xyz:1577836801:starRegistry" "bad"
        Demo.star4 1577836802000 1577836802005
      = (mkBlockchain (chain Demo.fresh ++ [newBlock]) (height Demo.fresh + 1),
         Rejected error)
      ∧ body newBlock = encodeBody (ClaimData "1xyz" Demo.star4).
Proof.
  assert (Hvalid : validateChain Demo.fresh = []) by (vm_compute; reflexivity).
  assert (Hverify : bitcoinMessage_verify "1xyz:1577836801:starRegistry"
                      "1xyz" "bad" ≠ Returns true)
    by (vm_compute; discriminate).
  split; [exact Hvalid|]. split; [exact Hverify|].
  exact (submitStar_rejected_yet_committed Demo.fresh "1xyz"
           "1xyz:1577836801:starRegistry" "bad" Demo.star4
           1577836802000 1577836802005 Hvalid Hverify).
Defined.

Lemma submitStar_accepts_expired_challenge_witness :
  validateChain Demo.fresh = []
  ∧ JS.parseInt (JS.split ":" "1xyz:1577836801:starRegistry" !! 1%nat)
    = JS.Int 1577836801
  ∧ 0 ≤ 1577836801
  ∧ 1000 ≤ 1577837102000 ≤ JS.max_time
  ∧ 300 < 1577837102000 `div` 1000 - 1577836801
  ∧ 1577837102000 `div` 1000 - 1577836801 = 301
  ∧ bitcoinMessage_verify "1xyz:1577836801:starRegistry" "1xyz"
      "signed:1xyz:1xyz:1577836801:starRegistry" = Returns true
  ∧ ∃ newBlock,
      submitStar Demo.fresh "1xyz" "1xyz:1577836801:starRegistry"
        "signed:1xyz:1xyz:1577836801:starRegistry" Demo.star4
        1577837102000 1577837102005
      = (mkBlockchain (chain Demo.fresh ++ [newBlock]) (height Demo.fresh + 1),
         Resolved newBlock).
Proof.
  assert (Hvalid : validateChain Demo.fresh = []) by (vm_compute; reflexivity).
  assert (HmsgTime :
            JS.parseInt (JS.split ":" "1xyz:1577836801:starRegistry" !! 1%nat)
            = JS.Int 1577836801) by reflexivity.
  assert (Hpos : 0 ≤ 1577836801) by lia.
  assert (Hnow : 1000 ≤ 1577837102000 ≤ JS.max_time)
    by (unfold JS.max_time; lia).
  assert (Hold : 300 < 1577837102000 `div` 1000 - 1577836801)
    by (vm_compute; reflexivity).
  assert (Hverify :
            bitcoinMessage_verify "1xyz:1577836801:starRegistry" "1xyz"
              "signed:1xyz:1xyz:1577836801:starRegistry" = Returns true)
    by (vm_compute; reflexivity).
  repeat (split; [first [assumption|reflexivity]|]).
  exact (submitStar_accepts_expired_challenge Demo.fresh "1xyz"
           "1xyz:1577836801:starRegistry"
           "signed:1xyz:1xyz:1577836801:starRegistry" Demo.star4
           1577837102000 1577837102005 1577836801
           Hvalid HmsgTime Hpos Hnow Hold Hverify).
Defined.

Example overlapped_chain :
  BlockClass.height <$> chain (object Demo.overlapped) = [0; 1; 1]
  ∧ height (object Demo.overlapped) = 1
  ∧ in_flight Demo.overlapped = []
  ∧ validateChain (object Demo.overlapped) = [Incompatible_previous_hash].
Proof. vm_compute. done. Qed.

Example fresh_observable : observable Demo.fresh.
Proof.
  exists 1577836800123, (settled Demo.fresh). split; [|done].
  apply new_Blockchain_alone.
Qed.

Example fresh_to_overlapped : rtc wstep (settled Demo.fresh) Demo.overlapped.
Proof. apply two_awaited_submitStar_steps. Qed.

Example overlapped_observable : observable (object Demo.overlapped).
Proof.
  exists 1577836800123, Demo.overlapped. split; [|done].
  etrans; [apply new_Blockchain_alone|]. apply fresh_to_overlapped.
Qed.

Lemma observable_chain_is_linked_witness :
  observable (object Demo.overlapped)
  ∧ chain (object Demo.overlapped) !! 2%nat = Some Demo.block_1abc
  ∧ (∃ h, hash Demo.block_1abc = Some h)
  ∧ 0 ≤ BlockClass.height Demo.block_1abc
  ∧ (BlockClass.height Demo.block_1abc = 0 →
     previousBlockHash Demo.block_1abc = None)
  ∧ (0 < BlockClass.height Demo.block_1abc →
     ∃ j prevBlock h,
       (j < 2)%nat
       ∧ chain (object Demo.overlapped) !! j = Some prevBlock
       ∧ BlockClass.height prevBlock = BlockClass.height Demo.block_1abc - 1
       ∧ hash prevBlock = Some h
       ∧ previousBlockHash Demo.block_1abc = Some h
       ∧ (heights_are_positions (object Demo.overlapped) →
          j = (2 - 1)%nat))
  ∧ (validateChain (object Demo.overlapped) = [] → 2%nat ≠ 0%nat →
     ∃ prevBlock h,
       chain (object Demo.overlapped) !! (2 - 1)%nat = Some prevBlock
       ∧ hash prevBlock = Some h
       ∧ previousBlockHash Demo.block_1abc = Some h).
Proof.
  assert (Hblock : chain (object Demo.overlapped) !! 2%nat
                   = Some Demo.block_1abc) by (vm_compute; reflexivity).
  split; [exact overlapped_observable|]. split; [exact Hblock|].
  exact (observable_chain_is_linked (object Demo.overlapped) 2
           Demo.block_1abc overlapped_observable Hblock).
Defined.


Lemma _addBlock_refuses_corrupt_chain_witness :
  validateChain (corrupt_body 1 "1bad/0/0h/mine" Demo.two_stars) ≠ []
  ∧ (_addBlock (corrupt_body 1 "1bad/0/0h/mine" Demo.two_stars)
       (new_Block (ClaimData "1abc" Demo.star4)) 1577836950000).2
    = Rejected ChainCorruptError
  ∧ (_addBlock (corrupt_body 1 "1bad/0/0h/mine" Demo.two_stars)
       (new_Block (ClaimData "1abc" Demo.star4)) 1577836950000).1.1
    = corrupt_body 1 "1bad/0/0h/mine" Demo.two_stars
  ∧ chain (_addBlock (corrupt_body 1 "1bad/0/0h/mine" Demo.two_stars)
             (new_Block (ClaimData "1abc" Demo.star4)) 1577836950000).1.1
    = chain (corrupt_body 1 "1bad/0/0h/mine" Demo.two_stars)
  ∧ height (_addBlock (corrupt_body 1 "1bad/0/0h/mine" Demo.two_stars)
              (new_Block (ClaimData "1abc" Demo.star4)) 1577836950000).1.1
    = height (corrupt_body 1 "1bad/0/0h/mine" Demo.two_stars).
Proof.
  assert (Herrors : validateChain (corrupt_body 1 "1bad/0/0h/mine" Demo.two_stars) ≠ [])
    by (vm_compute; discriminate).
  split; [exact Herrors|].
  exact (_addBlock_refuses_corrupt_chain (corrupt_body 1 "1bad/0/0h/mine" Demo.two_stars)
           (new_Block (ClaimData "1abc" Demo.star4)) 1577836950000 Herrors).
Defined.

Lemma validateChain_reports_all_errors_witness :
  validateChain Demo.two_stars = []
  ∧ chain Demo.two_stars !! 1%nat = Some Demo.block_1xyz
  ∧ digest (set_body "1bad/0/0h/mine" Demo.block_1xyz) ≠ digest Demo.block_1xyz
  ∧ validateChain (corrupt_body 1 "1bad/0/0h/mine" Demo.two_stars) = [Block_not_valid]
  ∧ detected_errors (corrupt_body 1 "1bad/0/0h/mine" Demo.two_stars) 1
      (set_body "1bad/0/0h/mine" Demo.block_1xyz) = [Block_not_valid]
  ∧ ∀ j other, j ≠ 1%nat →
      chain (corrupt_body 1 "1bad/0/0h/mine" Demo.two_stars) !! j = Some other →
      detected_errors (corrupt_body 1 "1bad/0/0h/mine" Demo.two_stars) j other = [].
Proof.
  assert (Hvalid : validateChain Demo.two_stars = [])
    by (vm_compute; reflexivity).
  assert (Hblock : chain Demo.two_stars !! 1%nat = Some Demo.block_1xyz)
    by (vm_compute; reflexivity).
  assert (Hdigest : digest (set_body "1bad/0/0h/mine" Demo.block_1xyz)
                    ≠ digest Demo.block_1xyz)
    by (vm_compute; discriminate).
  split; [exact Hvalid|]. split; [exact Hblock|]. split; [exact Hdigest|].
  exact (proj2 (proj2 (proj2 (validateChain_reports_all_errors Demo.two_stars)))
           1%nat Demo.block_1xyz "1bad/0/0h/mine" Hvalid Hblock Hdigest).
Defined.

Lemma getStarsByWalletAddress_owned_stars_witness :
  (∀ block, block ∈ chain Demo.two_stars → 0 < BlockClass.height block →
     is_Some (decodeBody (body block)))
  ∧ getStarsByWalletAddress Demo.two_stars "1xyz"
    = Resolved (stars_of_owner Demo.two_stars "1xyz")
  ∧ stars_of_owner Demo.two_stars "1xyz" = [Demo.star4].
Proof.
  assert (Hdecode : ∀ block, block ∈ chain Demo.two_stars →
            0 < BlockClass.height block → is_Some (decodeBody (body block))).
  { intros block Hin _. vm_compute in Hin.
    repeat (apply elem_of_cons in Hin as [->|Hin]; [by eexists|]).
    by apply elem_of_nil in Hin. }
  split; [exact Hdecode|]. split; [|vm_compute; reflexivity].
  exact (getStarsByWalletAddress_owned_stars Demo.two_stars "1xyz" Hdecode).
Defined.

Lemma requestMessageOwnershipVerification_format_witness :
  1000 ≤ 1577836800123
  ∧ requestMessageOwnershipVerification "1xyz" 1577836800123
    = Resolved ("1xyz" +:+ ":" +:+ JS.toString (1577836800123 `div` 1000)
                +:+ ":starRegistry")
  ∧ "1xyz" +:+ ":" +:+ JS.toString (1577836800123 `div` 1000)
    +:+ ":starRegistry" = "1xyz:1577836800:starRegistry".
Proof.
  assert (Hnow : 1000 ≤ 1577836800123) by lia.
  split; [exact Hnow|]. split; [|vm_compute; reflexivity].
  exact (requestMessageOwnershipVerification_format "1xyz" 1577836800123 Hnow).
Defined.

Lemma validateChain_altered_hash_witness :
  validateChain Demo.two_stars = []
  ∧ chain Demo.two_stars !! 1%nat = Some Demo.block_1xyz
  ∧ (∃ successor,
       chain Demo.two_stars !! 2%nat = Some successor
       ∧ Some "zzz" ≠ hash Demo.block_1xyz
       ∧ validateChain (corrupt_hash 1 (Some "zzz") Demo.two_stars)
         = [Block_not_valid; Incompatible_previous_hash]
       ∧ chain (corrupt_hash 1 (Some "zzz") Demo.two_stars) !! 1%nat
         = Some (set_hash (Some "zzz") Demo.block_1xyz)
       ∧ detected_errors (corrupt_hash 1 (Some "zzz") Demo.two_stars) 1
           (set_hash (Some "zzz") Demo.block_1xyz) = [Block_not_valid]
       ∧ chain (corrupt_hash 1 (Some "zzz") Demo.two_stars) !! 2%nat
         = Some successor
       ∧ detected_errors (corrupt_hash 1 (Some "zzz") Demo.two_stars) 2
           successor = [Incompatible_previous_hash]
       ∧ ∀ j other, j ≠ 1%nat → j ≠ 2%nat →
           chain (corrupt_hash 1 (Some "zzz") Demo.two_stars) !! j = Some other →
           detected_errors (corrupt_hash 1 (Some "zzz") Demo.two_stars) j other
           = []).
Proof.
  assert (Hvalid : validateChain Demo.two_stars = [])
    by (vm_compute; reflexivity).
  assert (Hblock : chain Demo.two_stars !! 1%nat = Some Demo.block_1xyz)
    by (vm_compute; reflexivity).
  assert (Hhash : Some "zzz" ≠ hash Demo.block_1xyz)
    by (vm_compute; discriminate).
  split; [exact Hvalid|]. split; [exact Hblock|].
  destruct (chain Demo.two_stars !! 2%nat) as [successor|] eqn:Hsucc;
    [|vm_compute in Hsucc; discriminate].
  exists successor. split; [reflexivity|]. split; [exact Hhash|].
  exact (validateChain_altered_hash Demo.two_stars 1 Demo.block_1xyz successor
           (Some "zzz") Hvalid Hblock Hsucc Hhash).
Defined.

Lemma getChainHeight_behind_the_array_witness :
  chain Demo.fresh ≠ []
  ∧ validateChain Demo.fresh = []
  ∧ height Demo.fresh = Z.of_nat (length (chain Demo.fresh)) - 1
  ∧ ∃ w block1 block2,
      w = Demo.overlapped
      ∧ rtc wstep (settled Demo.fresh) w
      ∧ in_flight w = []
      ∧ chain (object w) = chain Demo.fresh ++ [block1; block2]
      ∧ body block1 = encodeBody (ClaimData "1xyz" Demo.star4)
      ∧ body block2 = encodeBody (ClaimData "1abc" Demo.vega)
      ∧ BlockClass.height block1 = height Demo.fresh + 1
      ∧ BlockClass.height block2 = height Demo.fresh + 1
      ∧ getChainHeight (object w) = Resolved (BlockClass.height block2)
      ∧ getChainHeight (object w)
        = Resolved (Z.of_nat (length (chain (object w))) - 2)
      ∧ getChainHeight (object w)
        ≠ Resolved (Z.of_nat (length (chain (object w))) - 1).
Proof.
  assert (Hblocks : chain Demo.fresh ≠ []) by (vm_compute; discriminate).
  assert (Hvalid : validateChain Demo.fresh = []) by (vm_compute; reflexivity).
  assert (Hheight : height Demo.fresh
                    = Z.of_nat (length (chain Demo.fresh)) - 1)
    by (vm_compute; reflexivity).
  split; [exact Hblocks|]. split; [exact Hvalid|]. split; [exact Hheight|].
  exact (getChainHeight_behind_the_array Demo.fresh
           "1xyz" "1xyz:1577836801:starRegistry"
           "signed:1xyz:1xyz:1577836801:starRegistry" Demo.star4
           1577836802000 1577836802005
           "1abc" "1abc:1577836900:starRegistry"
           "signed:1abc:1abc:1577836900:starRegistry" Demo.vega
           1577836802010 1577836802012 Hblocks Hvalid Hheight).
Defined.

(** ** The further statements at concrete inputs *)

Example fresh_built : built Demo.fresh.
Proof. apply built_new. Qed.

Example one_star_built : built Demo.one_star.
Proof. unfold Demo.one_star. apply built_submitStar, fresh_built. Qed.

Example fresh_to_one_star : rtc step Demo.fresh Demo.one_star.
Proof. apply rtc_once. unfold Demo.one_star. apply step_submitStar. Qed.


Example tampered_counted : counted Demo.tampered.
Proof.
  split; [vm_compute; reflexivity|].
  intros [|[|[|idx]]] block Hblock; vm_compute in Hblock; by simplify_eq.
Qed.

Lemma getBlockByHeight_observable_witness :
  observable (object Demo.overlapped)
  ∧ (∀ z, 0 ≤ z ≤ height (object Demo.overlapped) →
       ∃ idx block,
         getBlockByHeight (object Demo.overlapped) (JS.Int z)
         = Resolved (Some block)
         ∧ chain (object Demo.overlapped) !! idx = Some block
         ∧ BlockClass.height block = z
         ∧ ∀ j other, (j < idx)%nat →
             chain (object Demo.overlapped) !! j = Some other →
             BlockClass.height other ≠ z)
  ∧ (∀ z, z < 0 →
       getBlockByHeight (object Demo.overlapped) (JS.Int z) = Resolved None)
  ∧ getBlockByHeight (object Demo.overlapped) JS.NaN = Resolved None.
Proof.
  split; [exact overlapped_observable|].
  exact (getBlockByHeight_observable (object Demo.overlapped)
           overlapped_observable).
Defined.

Lemma observable_blocks_pass_self_check_witness :
  observable (object Demo.overlapped)
  ∧ (∀ block, block ∈ chain (object Demo.overlapped) →
       validate block = true ∧ hash block = Some (digest block))
  ∧ (∀ error, error ∈ validateChain (object Demo.overlapped) →
       error = Incompatible_previous_hash).
Proof.
  split; [exact overlapped_observable|].
  exact (observable_blocks_pass_self_check (object Demo.overlapped)
           overlapped_observable).
Defined.

Lemma submitStar_block_is_pushed_witness :
  validateChain (object Demo.one_in_flight) = []
  ∧ (∃ tail,
       last (chain (object Demo.one_in_flight)) = Some tail
       ∧ ∃ a,
           (submitStar_begin Demo.one_in_flight "1abc" "no timestamp" "bad"
              Demo.vega 1577836802010 1577836802012).1
           = mkWorld (object Demo.one_in_flight)
               (in_flight Demo.one_in_flight ++ [a])
           ∧ finish_addBlock Demo.one_star a
             = (mkBlockchain (chain Demo.one_star ++ [candidate a])
                  (height (object Demo.one_in_flight) + 1),
                Resolved (candidate a))
           ∧ BlockClass.height (candidate a)
             = height (object Demo.one_in_flight) + 1
           ∧ previousBlockHash (candidate a) = hash tail
           ∧ body (candidate a) = encodeBody (ClaimData "1abc" Demo.vega)
           ∧ time (candidate a) = Some (JS.seconds_string 1577836802012)
           ∧ validate (candidate a) = true).
Proof.
  assert (Hvalid : validateChain (object Demo.one_in_flight) = [])
    by (vm_compute; reflexivity).
  split; [exact Hvalid|].
  destruct (last (chain (object Demo.one_in_flight))) as [tail|] eqn:Htail;
    [|vm_compute in Htail; discriminate].
  exists tail. split; [reflexivity|].
  exact (submitStar_block_is_pushed Demo.one_in_flight "1abc" "no timestamp"
           "bad" Demo.vega 1577836802010 1577836802012 tail Demo.one_star
           Hvalid Htail).
Defined.

Lemma submitStar_settlement_witness :
  built Demo.one_star
  ∧ (JS.split ":" "1abc:1577836900:starRegistry" !! 1%nat = None
     ∨ ∃ msgTime,
         JS.parseInt (JS.split ":" "1abc:1577836900:starRegistry" !! 1%nat)
         = JS.Int msgTime
         ∧ 0 ≤ msgTime ∧ 1000 ≤ 1577836901000 ≤ JS.max_time)
  ∧ ∃ newBlock,
      last (chain (submitStar Demo.one_star "1abc"
                     "1abc:1577836900:starRegistry" "" Demo.vega
                     1577836901000 1577836901002).1) = Some newBlock
      ∧ (submitStar Demo.one_star "1abc" "1abc:1577836900:starRegistry" ""
           Demo.vega 1577836901000 1577836901002).2
        = match bitcoinMessage_verify "1abc:1577836900:starRegistry" "1abc" ""
          with
          | Returns true => Resolved newBlock
          | Returns false => Rejected InvalidSignatureError
          | Throws error => Rejected error
          end.
Proof.
  assert (Htime :
    JS.split ":" "1abc:1577836900:starRegistry" !! 1%nat = None
    ∨ ∃ msgTime,
        JS.parseInt (JS.split ":" "1abc:1577836900:starRegistry" !! 1%nat)
        = JS.Int msgTime
        ∧ 0 ≤ msgTime ∧ 1000 ≤ 1577836901000 ≤ JS.max_time).
  { right. exists 1577836900. split; [reflexivity|].
    unfold JS.max_time. lia. }
  split; [exact one_star_built|]. split; [exact Htime|].
  exact (submitStar_settlement Demo.one_star "1abc"
           "1abc:1577836900:starRegistry" "" Demo.vega
           1577836901000 1577836901002 one_star_built Htime).
Defined.

Lemma submitStar_accepts_message_without_timestamp_witness :
  built Demo.one_star
  ∧ JS.split ":" "hello" !! 1%nat = None
  ∧ bitcoinMessage_verify "hello" "1abc" "signed:1abc:hello" = Returns true
  ∧ ∃ newBlock,
      submitStar Demo.one_star "1abc" "hello" "signed:1abc:hello" Demo.vega
        1577836901000 1577836901002
      = (mkBlockchain (chain Demo.one_star ++ [newBlock])
           (height Demo.one_star + 1),
         Resolved newBlock).
Proof.
  assert (Hfield : JS.split ":" "hello" !! 1%nat = None) by reflexivity.
  assert (Hverify : bitcoinMessage_verify "hello" "1abc" "signed:1abc:hello"
                    = Returns true) by (vm_compute; reflexivity).
  split; [exact one_star_built|]. split; [exact Hfield|].
  split; [exact Hverify|].
  exact (submitStar_accepts_message_without_timestamp Demo.one_star "1abc"
           "hello" "signed:1abc:hello" Demo.vega 1577836901000 1577836901002
           one_star_built Hfield Hverify).
Defined.





Lemma getStarsByWalletAddress_never_settles_witness :
  set_body "a/b" Demo.block_1xyz ∈ chain Demo.unreadable
  ∧ 0 < BlockClass.height (set_body "a/b" Demo.block_1xyz)
  ∧ (∀ data, getBData (set_body "a/b" Demo.block_1xyz) ≠ Resolved data)
  ∧ getStarsByWalletAddress Demo.unreadable "1abc" = Pending.
Proof.
  assert (Hin : set_body "a/b" Demo.block_1xyz ∈ chain Demo.unreadable).
  { apply list_elem_of_lookup. exists 1%nat. vm_compute. reflexivity. }
  assert (Hheight : 0 < BlockClass.height (set_body "a/b" Demo.block_1xyz))
    by (vm_compute; reflexivity).
  assert (Hfails : ∀ data,
            getBData (set_body "a/b" Demo.block_1xyz) ≠ Resolved data)
    by (intros data; vm_compute; discriminate).
  split; [exact Hin|]. split; [exact Hheight|]. split; [exact Hfails|].
  exact (getStarsByWalletAddress_never_settles Demo.unreadable "1abc"
           (set_body "a/b" Demo.block_1xyz) Hin Hheight Hfails).
Defined.


Lemma submitStar_resolves_without_commit_witness :
  validateChain Demo.tampered ≠ []
  ∧ counted Demo.tampered
  ∧ (JS.split ":" "1abc:1577836900:starRegistry" !! 1%nat = None
     ∨ ∃ msgTime,
         JS.parseInt (JS.split ":" "1abc:1577836900:starRegistry" !! 1%nat)
         = JS.Int msgTime
         ∧ 0 ≤ msgTime ∧ 1000 ≤ 1577836901000 ≤ JS.max_time)
  ∧ bitcoinMessage_verify "1abc:1577836900:starRegistry" "1abc"
      "signed:1abc:1abc:1577836900:starRegistry" = Returns true
  ∧ ∃ newBlock,
      submitStar Demo.tampered "1abc" "1abc:1577836900:starRegistry"
        "signed:1abc:1abc:1577836900:starRegistry" Demo.vega
        1577836901000 1577836901002
      = (Demo.tampered, Resolved newBlock)
      ∧ body newBlock = encodeBody (ClaimData "1abc" Demo.vega)
      ∧ newBlock ∉ chain Demo.tampered.
Proof.
  assert (Hcorrupt : validateChain Demo.tampered ≠ [])
    by (vm_compute; discriminate).
  assert (Htime :
    JS.split ":" "1abc:1577836900:starRegistry" !! 1%nat = None
    ∨ ∃ msgTime,
        JS.parseInt (JS.split ":" "1abc:1577836900:starRegistry" !! 1%nat)
        = JS.Int msgTime
        ∧ 0 ≤ msgTime ∧ 1000 ≤ 1577836901000 ≤ JS.max_time).
  { right. exists 1577836900. split; [reflexivity|].
    unfold JS.max_time. lia. }
  assert (Hverify : bitcoinMessage_verify "1abc:1577836900:starRegistry"
                      "1abc" "signed:1abc:1abc:1577836900:starRegistry"
                    = Returns true) by (vm_compute; reflexivity).
  split; [exact Hcorrupt|]. split; [exact tampered_counted|].
  split; [exact Htime|]. split; [exact Hverify|].
  exact (submitStar_resolves_without_commit Demo.tampered "1abc"
           "1abc:1577836900:starRegistry"
           "signed:1abc:1abc:1577836900:starRegistry" Demo.vega
           1577836901000 1577836901002 Hcorrupt tampered_counted Htime
           Hverify).
Defined.

Lemma challenge_round_trip_witness :
  1000 ≤ 1577836800123
  ∧ 1000 ≤ 1577836861999
  ∧ JS.split ":" "1xyz" = ["1xyz"]
  ∧ ∃ message,
      requestMessageOwnershipVerification "1xyz" 1577836800123
      = Resolved message
      ∧ JS.split ":" message
        = ["1xyz"; JS.toString (1577836800123 `div` 1000); "starRegistry"]
      ∧ JS.parseInt (JS.split ":" message !! 1%nat)
        = JS.Int (1577836800123 `div` 1000)
      ∧ JS.sub (JS.parseInt (Some (JS.seconds_string 1577836861999)))
               (JS.parseInt (JS.split ":" message !! 1%nat))
        = JS.Int (1577836861999 `div` 1000 - 1577836800123 `div` 1000).
Proof.
  assert (Hissued : 1000 ≤ 1577836800123) by lia.
  assert (Hnow : 1000 ≤ 1577836861999) by lia.
  assert (Haddress : JS.split ":" "1xyz" = ["1xyz"]) by reflexivity.
  split; [exact Hissued|]. split; [exact Hnow|]. split; [exact Haddress|].
  exact (challenge_round_trip "1xyz" 1577836800123 1577836861999
           Hissued Hnow Haddress).
Defined.

Lemma getBlockByHeight_is_stable_witness :
  reachable Demo.fresh
  ∧ rtc step Demo.fresh Demo.one_star
  ∧ 0 ≤ 0 ≤ height Demo.fresh
  ∧ getBlockByHeight Demo.one_star (JS.Int 0)
    = getBlockByHeight Demo.fresh (JS.Int 0).
Proof.
  assert (Hz : 0 ≤ 0 ≤ height Demo.fresh) by (vm_compute; split; discriminate).
  split; [exact fresh_reachable|]. split; [exact fresh_to_one_star|].
  split; [exact Hz|].
  exact (getBlockByHeight_is_stable Demo.fresh Demo.one_star 0
           fresh_reachable fresh_to_one_star Hz).
Defined.


Lemma chain_is_append_only_witness :
  rtc wstep (settled Demo.fresh) Demo.overlapped
  ∧ (∃ added,
       chain (object Demo.overlapped)
       = chain (object (settled Demo.fresh)) ++ added)
  ∧ (length (chain (object (settled Demo.fresh)))
     ≤ length (chain (object Demo.overlapped)))%nat
  ∧ ∀ idx block, chain (object (settled Demo.fresh)) !! idx = Some block →
      chain (object Demo.overlapped) !! idx = Some block.
Proof.
  split; [exact fresh_to_overlapped|].
  exact (chain_is_append_only (settled Demo.fresh) Demo.overlapped
           fresh_to_overlapped).
Defined.

Lemma getChainHeight_observable_witness :
  observable (object Demo.overlapped)
  ∧ (getChainHeight (object Demo.overlapped) = Resolved (-1)
     ↔ chain (object Demo.overlapped) = [])
  ∧ (∀ tail, last (chain (object Demo.overlapped)) = Some tail →
       getChainHeight (object Demo.overlapped)
       = Resolved (BlockClass.height tail)
       ∧ 0 ≤ BlockClass.height tail).
Proof.
  split; [exact overlapped_observable|].
  exact (getChainHeight_observable (object Demo.overlapped)
           overlapped_observable).
Defined.

